(** * A shallow embedding of BloomFilter/BloomFilter.py

    The class [bloomfilter] is embedded method by method.  Objects live in
    a store (a finite map from references to attribute records) and every
    method is a computation in a small state-and-exception monad over that
    store, so that [copy.deepcopy], the in-place updates of
    [self.__bitarray] and an exception raised half-way are all visible.

    Modelling decisions:
    - Python floats are modelled by real numbers: [math.log] is [ln],
      [math.ceil] is [Zceil], [x ** y] on floats is [Rpower].  Rounding,
      overflow, infinities and NaN of IEEE doubles are not modelled.
    - Python integers are [Z]; [%] on integers is [Z.modulo] (the sign of
      the result follows the divisor in both languages) and raises
      [ZeroDivisionError] for a zero divisor.
    - [mmh3.hash (str item, seed)] is an external library call; it is a
      variable of the development, an arbitrary function to [Z].
    - [bitarray] is a list of booleans; indexing follows Python's rules
      (a negative index counts from the end, anything else out of range
      raises [IndexError]). *)

From Stdlib Require Import Reals Lra ZArith Lia String.
From stdpp Require Import base gmap list strings.

Local Open Scope Z_scope.

(** ** Exceptions, results, the object store *)

Inductive exn : Type :=
| InputException (message : string)
| ZeroDivisionError
| IndexError
| Dangling.  (* model only: a reference to no object; Python keeps every
                referenced object alive, so this is never raised by a
                program that only uses references it was given *)

Inductive result (A : Type) : Type :=
| Ok (a : A)
| Raise (e : exn).
Arguments Ok {A} a.
Arguments Raise {A} e.

(** The attributes of a [bloomfilter] instance: [self.b], [self.k],
    [self.n], [self.m], [self.__bitarray] and [self.__size]. *)
Record bloomfilter : Type := Bloomfilter {
  attr_b : R;
  attr_k : Z;
  attr_n : R;
  attr_m : Z;
  attr_bitarray : list bool;
  attr_size : Z
}.

Definition set_bitarray (f : bloomfilter) (bits : list bool) : bloomfilter :=
  Bloomfilter (attr_b f) (attr_k f) (attr_n f) (attr_m f) bits (attr_size f).

Definition set_size (f : bloomfilter) (sz : Z) : bloomfilter :=
  Bloomfilter (attr_b f) (attr_k f) (attr_n f) (attr_m f) (attr_bitarray f) sz.

Abbreviation loc := nat (only parsing).
Abbreviation heap := (gmap nat bloomfilter) (only parsing).

(** A computation reads and updates the store and returns a value or
    raises; the store as it was when an exception is raised is kept
    (Python does not roll back). *)
Definition M (A : Type) : Type := heap -> result A * heap.

#[export] Instance M_ret : MRet M := fun A a h => (Ok a, h).

#[export] Instance M_bind : MBind M := fun A B f c h =>
  match c h with
  | (Ok a, h') => f a h'
  | (Raise e, h') => (Raise e, h')
  end.

Definition raise {A : Type} (e : exn) : M A := fun h => (Raise e, h).

Definition load (r : loc) : M bloomfilter := fun h =>
  match h !! r with
  | Some f => (Ok f, h)
  | None => (Raise Dangling, h)
  end.

Definition store (r : loc) (f : bloomfilter) : M unit := fun h =>
  (Ok tt, <[r := f]> h).

(** A new object gets a reference no object of the store has. *)
Definition alloc (f : bloomfilter) : M loc := fun h =>
  let r := fresh (dom h) in (Ok r, <[r := f]> h).

Definition getattr {A : Type} (r : loc) (attr : bloomfilter -> A) : M A :=
  f ← load r; mret (attr f).

(** [copy.deepcopy(self)]: a new object with a copy of every attribute
    (the bit array included). *)
Definition deepcopy (r : loc) : M loc :=
  f ← load r; alloc f.

(** [for x in l: body x] *)
Fixpoint for_each {A : Type} (l : list A) (body : A -> M unit) : M unit :=
  match l with
  | [] => mret tt
  | x :: l' => body x ;; for_each l' body
  end.

(** [range(k)]: empty when [k <= 0]. *)
Definition range (k : Z) : list Z := seqZ 0 k.

(** [a % b] on integers. *)
Definition py_mod (a b : Z) : M Z :=
  if decide (b = 0) then raise ZeroDivisionError else mret (a mod b).

(** ** bitarray *)

(** The position a Python index denotes in a sequence of length [len]. *)
Definition bitarray_index (len : nat) (i : Z) : option nat :=
  if decide (0 <= i < Z.of_nat len) then Some (Z.to_nat i)
  else if decide (- Z.of_nat len <= i < 0) then Some (Z.to_nat (i + Z.of_nat len))
  else None.

(** [r.__bitarray[i]] *)
Definition bitarray_getitem (r : loc) (i : Z) : M bool :=
  bits ← getattr r attr_bitarray;
  match bitarray_index (length bits) i with
  | Some j =>
      match bits !! j with
      | Some v => mret v
      | None => raise IndexError
      end
  | None => raise IndexError
  end.

(** [r.__bitarray[i] = v] *)
Definition bitarray_setitem (r : loc) (i : Z) (v : bool) : M unit :=
  f ← load r;
  match bitarray_index (length (attr_bitarray f)) i with
  | Some j => store r (set_bitarray f (<[j := v]> (attr_bitarray f)))
  | None => raise IndexError
  end.

(** [bits.any()] *)
Definition bitarray_any (bits : list bool) : bool := existsb (fun v => v) bits.

(** ** Fixed-point bounds on the exponential (used to bound [ln]) *)

(** [a * a / s]: the square of the fixed-point number [a / s], rounded down. *)
Definition fsq (s a : Z) : Z := a * a / s.

(** [k] squarings in a row. *)
Fixpoint fpow2 (s : Z) (k : nat) (a : Z) : Z :=
  match k with
  | O => a
  | S k' => fpow2 s k' (fsq s a)
  end.

(** The denominator used for [k] squarings of a number given in [1/t]. *)
Definition scale (k : nat) (t : Z) : Z := 2 ^ Z.of_nat k * t.

(** ** The class *)

Section BloomFilter.

(** The type of the items and [mmh3.hash(str(item), seed=seed)]. *)
Variable Item : Type.
Variable mmh3_hash : Item -> Z -> Z.

(** The second operand of [+]: another filter ([isinstance(other,
    bloomfilter)]) or anything else, taken as an item. *)
Inductive operand : Type :=
| Filter (other : loc)
| Other (item : Item).

(** [samples=None] stands for the empty list. *)
Definition samples_or_empty (samples : option (list Item)) : list Item :=
  match samples with
  | None => []
  | Some l => l
  end.

Definition msg_n : string := "n should be positive".
Definition msg_epsilon : string := "ε range should be (0, 1)".
Definition msg_k : string :=
  "bloom filters which have different hash functions cannot be added.".
Definition msg_m : string :=
  "bloom filters which have different size cannot be added.".
Definition msg_call : string :=
  "Some elements have already been in this bloom filter. " ++
  "If user want to add elements into this bloom filter, " ++
  "please create a new one and add them together.".

(** [bloomfilter(n, samples, epsilon, k)]: the new object and the body of
    [__init__] (lines 38 to 56). *)
Definition __init__ (n : R) (samples : option (list Item)) (epsilon : R) (k : Z)
  : M loc :=
  let samples := samples_or_empty samples in
  if Rle_dec n 0 then raise (InputException msg_n)
  else if Rle_dec epsilon 0 then raise (InputException msg_epsilon)
  else if Rge_dec epsilon 1 then raise (InputException msg_epsilon)
  else
    let b := (- ln epsilon / (ln 2) ^ 2)%R in
    let k := if decide (k = 0) then Zceil (b * ln 2) else k in
    let m := Zceil (n * b) in
    self ← alloc (Bloomfilter b k n m (replicate (Z.to_nat m) false)
                              (Z.of_nat (length samples)));
    for_each samples (fun sample =>
      k ← getattr self attr_k;
      for_each (range k) (fun seed =>
        m ← getattr self attr_m;
        i ← py_mod (mmh3_hash sample seed) m;
        bitarray_setitem self i true)) ;;
    mret self.

(** [self + other] (lines 63 to 84). *)
Definition __add__ (self : loc) (other : operand) : M loc :=
  match other with
  | Filter other =>
      other_k ← getattr other attr_k;
      self_k ← getattr self attr_k;
      if decide (other_k ≠ self_k) then raise (InputException msg_k)
      else
        other_m ← getattr other attr_m;
        self_m ← getattr self attr_m;
        if decide (other_m ≠ self_m) then raise (InputException msg_m)
        else
          tmp ← deepcopy self;
          t ← load tmp;
          other_size ← getattr other attr_size;
          store tmp (set_size t (attr_size t + other_size)) ;;
          m ← getattr tmp attr_m;
          for_each (range m) (fun i =>
            x ← bitarray_getitem tmp i;
            y ← bitarray_getitem other i;
            bitarray_setitem tmp i (x || y)) ;;
          mret tmp
  | Other item =>
      tmp ← deepcopy self;
      t ← load tmp;
      store tmp (set_size t (attr_size t + 1)) ;;
      k ← getattr tmp attr_k;
      for_each (range k) (fun seed =>
        m ← getattr tmp attr_m;
        i ← py_mod (mmh3_hash item seed) m;
        bitarray_setitem tmp i true) ;;
      mret tmp
  end.

(** [other + self] *)
Definition __radd__ (self : loc) (other : operand) : M loc :=
  __add__ self other.

(** [self(samples)] (lines 98 to 108). *)
Definition __call__ (self : loc) (samples : option (list Item)) : M unit :=
  let samples := samples_or_empty samples in
  bits ← getattr self attr_bitarray;
  if bitarray_any bits then raise (InputException msg_call)
  else
    f ← load self;
    store self (set_size f (attr_size f + Z.of_nat (length samples))) ;;
    for_each samples (fun sample =>
      k ← getattr self attr_k;
      for_each (range k) (fun seed =>
        m ← getattr self attr_m;
        i ← py_mod (mmh3_hash sample seed) m;
        bitarray_setitem self i true)).

(** The loop of [__contains__]: it returns at the first bit that is 0. *)
Fixpoint contains_loop (self : loc) (item : Item) (seeds : list Z) : M bool :=
  match seeds with
  | [] => mret true
  | seed :: seeds' =>
      m ← getattr self attr_m;
      i ← py_mod (mmh3_hash item seed) m;
      v ← bitarray_getitem self i;
      if negb v then mret false else contains_loop self item seeds'
  end.

(** [item in self] (lines 115 to 118). *)
Definition __contains__ (self : loc) (item : Item) : M bool :=
  k ← getattr self attr_k;
  contains_loop self item (range k).

(** [len(self)] *)
Definition __len__ (self : loc) : M Z := getattr self attr_size.

(** [self.actual_epsilon] (line 131). *)
Definition actual_epsilon (self : loc) : M R :=
  sz ← getattr self attr_size;
  if decide (sz ≠ 0) then
    m ← getattr self attr_m;
    sz ← getattr self attr_size;
    mret (Rpower (1 / 2) (IZR m / IZR sz * ln 2))
  else mret 0%R.

(** [self.show()] *)
Definition show (self : loc) : M (list bool) := getattr self attr_bitarray.

(** ** Client programs *)

(** A client program is a sequence of calls on the class.  Next to the
    store, its state records for every object the items that were put
    into it: at construction, by [+] with an item, by a call, or
    inherited from the operands of a merge. *)
Inductive command : Type :=
| Construct (n : R) (samples : option (list Item)) (epsilon : R) (k : Z)
| Insert (self : loc) (item : Item)
| Populate (self : loc) (samples : option (list Item))
| Merge (self other : loc).

Definition members (g : gmap nat (list Item)) (r : loc) : list Item :=
  default [] (g !! r).

Definition step (st : heap * gmap nat (list Item)) (c : command)
  : heap * gmap nat (list Item) :=
  let '(h, g) := st in
  match c with
  | Construct n samples epsilon k =>
      match __init__ n samples epsilon k h with
      | (Ok r, h') => (h', <[r := samples_or_empty samples]> g)
      | (Raise _, h') => (h', g)
      end
  | Insert self item =>
      match __add__ self (Other item) h with
      | (Ok r, h') => (h', <[r := item :: members g self]> g)
      | (Raise _, h') => (h', g)
      end
  | Populate self samples =>
      match __call__ self samples h with
      | (Ok _, h') =>
          (h', <[self := members g self ++ samples_or_empty samples]> g)
      | (Raise _, h') => (h', g)
      end
  | Merge self other =>
      match __add__ self (Filter other) h with
      | (Ok r, h') => (h', <[r := members g self ++ members g other]> g)
      | (Raise _, h') => (h', g)
      end
  end.

(** A program runs from the empty store. *)
Definition run (cs : list command) : heap * gmap nat (list Item) :=
  foldl step (∅, ∅) cs.

(** ** What the loops compute *)

(** The position of [item] for [seed] in a bit array of length [m]. *)
Definition position (m : Z) (item : Item) (seed : Z) : nat :=
  Z.to_nat (mmh3_hash item seed mod m).

(** The bits after [for seed in seeds: bits[hash(item, seed) % m] = 1]. *)
Definition set_positions (m : Z) (item : Item) (seeds : list Z)
    (bits : list bool) : list bool :=
  foldl (fun bs seed => <[position m item seed := true]> bs) bits seeds.

(** The bits after the two nested loops over [items] and [range k]. *)
Definition add_items (k m : Z) (items : list Item) (bits : list bool)
  : list bool :=
  foldl (fun bs item => set_positions m item (range k) bs) bits items.

(** Every position of [item] is set. *)
Definition all_set (m : Z) (item : Item) (seeds : list Z) (bits : list bool)
  : bool :=
  forallb (fun seed => bool_decide (bits !! position m item seed = Some true))
          seeds.

(** The bits after [for i in idxs: bits[i] |= other[i]]. *)
Definition or_positions (other : list bool) (idxs : list Z) (bits : list bool)
  : list bool :=
  foldl (fun bs i =>
           <[Z.to_nat i := (bs !!! Z.to_nat i) || (other !!! Z.to_nat i)]> bs)
        bits idxs.

(** The attributes [__init__] computes (lines 46 to 49) and the object it
    builds. *)
Definition init_b (epsilon : R) : R := (- ln epsilon / (ln 2) ^ 2)%R.

Definition init_k (epsilon : R) (k : Z) : Z :=
  if decide (k = 0) then Zceil (init_b epsilon * ln 2) else k.

Definition init_m (n epsilon : R) : Z := Zceil (n * init_b epsilon).

Definition init_object (n : R) (samples : list Item) (epsilon : R) (k : Z)
  : bloomfilter :=
  Bloomfilter (init_b epsilon) (init_k epsilon k) n (init_m n epsilon)
    (add_items (init_k epsilon k) (init_m n epsilon) samples
       (replicate (Z.to_nat (init_m n epsilon)) false))
    (Z.of_nat (length samples)).

(** The object [self + item] builds from the attributes [f] of [self]. *)
Definition inserted (f : bloomfilter) (item : Item) : bloomfilter :=
  set_bitarray (set_size f (attr_size f + 1))
    (set_positions (attr_m f) item (range (attr_k f)) (attr_bitarray f)).

(** The object [self + other] builds for two filters. *)
Definition merged (s o : bloomfilter) : bloomfilter :=
  set_bitarray (set_size s (attr_size s + attr_size o))
    (zip_with orb (attr_bitarray s) (attr_bitarray o)).

(** The attributes of [self] after a successful [self(samples)]. *)
Definition populated (f : bloomfilter) (samples : list Item) : bloomfilter :=
  set_bitarray (set_size f (attr_size f + Z.of_nat (length samples)))
    (add_items (attr_k f) (attr_m f) samples (attr_bitarray f)).

(** The estimate in the words of the specification: 0 for no element,
    otherwise [0.5 ^ ((bitLength / elementCount) * ln 2)]. *)
Definition ActualErrorRate_spec (bitLength elementCount : Z) : R :=
  if decide (elementCount = 0) then 0%R
  else Rpower (1 / 2) (IZR bitLength / IZR elementCount * ln 2).

(** Every bit set in [bits] is set in [bits']. *)
Definition bits_le (bits bits' : list bool) : Prop :=
  ∀ j, bits !! j = Some true → bits' !! j = Some true.

(** ** Well-formed objects *)

(** The bit array has [m] bits and [m] is positive. *)
Definition wf (f : bloomfilter) : Prop :=
  0 < attr_m f ∧ length (attr_bitarray f) = Z.to_nat (attr_m f).

Definition heap_wf (h : heap) : Prop :=
  ∀ r f, h !! r = Some f → wf f.

(** No object with a negative [k] has a bit set. *)
Definition negative_k_clear (h : heap) : Prop :=
  ∀ r f, h !! r = Some f → attr_k f < 0 →
         bitarray_any (attr_bitarray f) = false.

(** The invariant of client programs: every object is well formed and
    every recorded item of an object has all its positions set. *)
Definition inv (st : heap * gmap nat (list Item)) : Prop :=
  heap_wf st.1 ∧
  ∀ r x, x ∈ members st.2 r →
    ∃ f, st.1 !! r = Some f ∧
         all_set (attr_m f) x (range (attr_k f)) (attr_bitarray f) = true.

(** * Proofs *)

(** ** The monad *)

Section Monad.
Context {A B : Type}.

Lemma bind_Ok (c : M A) (f : A -> M B) h a h' :
  c h = (Ok a, h') -> (c ≫= f) h = f a h'.
Proof. intros E. unfold mbind, M_bind. now rewrite E. Qed.

Lemma bind_Raise (c : M A) (f : A -> M B) h e h' :
  c h = (Raise e, h') -> (c ≫= f) h = (Raise e, h').
Proof. intros E. unfold mbind, M_bind. now rewrite E. Qed.

Lemma bind_ret (a : A) (f : A -> M B) h : (mret a ≫= f) h = f a h.
Proof. reflexivity. Qed.

End Monad.

Lemma load_Some r f (h : heap) : h !! r = Some f -> load r h = (Ok f, h).
Proof. intros E. unfold load. now rewrite E. Qed.

Lemma load_None r (h : heap) : h !! r = None -> load r h = (Raise Dangling, h).
Proof. intros E. unfold load. now rewrite E. Qed.

Lemma getattr_Some {A} r (attr : bloomfilter -> A) f (h : heap) :
  h !! r = Some f -> getattr r attr h = (Ok (attr f), h).
Proof. intros E. unfold getattr. now rewrite (bind_Ok _ _ _ _ _ (load_Some _ _ _ E)). Qed.

Lemma getattr_None {A} r (attr : bloomfilter -> A) (h : heap) :
  h !! r = None -> getattr r attr h = (Raise Dangling, h).
Proof. intros E. unfold getattr. now rewrite (bind_Raise _ _ _ _ _ (load_None _ _ E)). Qed.

Lemma fresh_None (h : heap) : h !! fresh (dom h) = None.
Proof. apply not_elem_of_dom. apply is_fresh. Qed.

Lemma set_bitarray_id f : set_bitarray f (attr_bitarray f) = f.
Proof. now destruct f. Qed.

Lemma py_mod_pos a b : 0 < b -> ∀ h : heap, py_mod a b h = (Ok (a mod b), h).
Proof. intros Hb h. unfold py_mod. destruct (decide (b = 0)); [lia | reflexivity]. Qed.

Lemma bitarray_index_in len i :
  0 <= i < Z.of_nat len -> bitarray_index len i = Some (Z.to_nat i).
Proof. intros H. unfold bitarray_index. now rewrite decide_True. Qed.

Lemma bitarray_setitem_in r f (h : heap) i v :
  h !! r = Some f -> 0 <= i < Z.of_nat (length (attr_bitarray f)) ->
  bitarray_setitem r i v h
  = (Ok tt, <[r := set_bitarray f (<[Z.to_nat i := v]> (attr_bitarray f))]> h).
Proof.
  intros E Hi. unfold bitarray_setitem.
  rewrite (bind_Ok _ _ _ _ _ (load_Some _ _ _ E)).
  now rewrite bitarray_index_in.
Qed.

Lemma bitarray_getitem_in r f (h : heap) i :
  h !! r = Some f -> 0 <= i < Z.of_nat (length (attr_bitarray f)) ->
  bitarray_getitem r i h = (Ok (attr_bitarray f !!! Z.to_nat i), h).
Proof.
  intros E Hi. unfold bitarray_getitem.
  rewrite (bind_Ok _ _ _ _ _ (getattr_Some _ _ _ _ E)).
  rewrite bitarray_index_in by assumption.
  destruct (lookup_lt_is_Some_2 (attr_bitarray f) (Z.to_nat i)) as [v Hv]; [lia|].
  rewrite Hv. now rewrite (list_lookup_total_correct _ _ _ Hv).
Qed.

(** Tactics for one step of a computation: a bind whose first part is
    known to return, and the read of an attribute of an existing object. *)
Tactic Notation "bind_with" uconstr(H) :=
  rewrite (bind_Ok _ _ _ _ _ H).
Tactic Notation "read_attr" uconstr(E) :=
  rewrite (bind_Ok _ _ _ _ _ (getattr_Some _ _ _ _ E)).
Tactic Notation "read_obj" uconstr(E) :=
  rewrite (bind_Ok _ _ _ _ _ (load_Some _ _ _ E)).

(** The three checks of [__init__] on [n] and [epsilon]. *)
Ltac case_parameters n epsilon :=
  let Hn := fresh "Hn" in
  let He0 := fresh "He0" in
  let He1 := fresh "He1" in
  destruct (Rlt_le_dec 0 n) as [Hn | Hn];
  [destruct (Rlt_le_dec 0 epsilon) as [He0 | He0];
   [destruct (Rlt_le_dec epsilon 1) as [He1 | He1] |] |].

(** ** The loops *)

Lemma position_lt m item seed :
  0 < m -> 0 <= mmh3_hash item seed mod m < m.
Proof. intros Hm. apply Z.mod_pos_bound. exact Hm. Qed.

Lemma set_positions_length m item seeds bits :
  length (set_positions m item seeds bits) = length bits.
Proof.
  revert bits. induction seeds as [|s seeds IH]; intros bits; simpl; [done|].
  unfold set_positions in *. simpl. rewrite IH. apply length_insert.
Qed.

Lemma add_items_length k m items bits :
  length (add_items k m items bits) = length bits.
Proof.
  revert bits. induction items as [|x items IH]; intros bits; simpl; [done|].
  unfold add_items in *. simpl. rewrite IH. apply set_positions_length.
Qed.

Lemma wf_set_bitarray f bits :
  wf f -> length bits = length (attr_bitarray f) -> wf (set_bitarray f bits).
Proof. intros [Hm Hl] E. split; simpl; [done | congruence]. Qed.

Lemma wf_set_size f sz : wf f -> wf (set_size f sz).
Proof. intros [Hm Hl]. split; simpl; done. Qed.

(** [for seed in seeds: r.__bitarray[mmh3.hash(str(item), seed) % r.m] = 1]
    on a well-formed object never raises and sets exactly the positions
    of [item]. *)
Lemma seed_loop_run r item seeds : ∀ f (h : heap),
  h !! r = Some f -> wf f ->
  for_each seeds (fun seed =>
      m ← getattr r attr_m;
      i ← py_mod (mmh3_hash item seed) m;
      bitarray_setitem r i true) h
  = (Ok tt,
     <[r := set_bitarray f (set_positions (attr_m f) item seeds (attr_bitarray f))]> h).
Proof.
  induction seeds as [|seed seeds IH]; intros f h E Hwf.
  - simpl. rewrite set_bitarray_id, insert_id; done.
  - destruct Hwf as [Hm Hl]. cbn [for_each].
    pose proof (position_lt (attr_m f) item seed Hm) as Hpos.
    assert (Hstep :
      (m ← getattr r attr_m; i ← py_mod (mmh3_hash item seed) m;
       bitarray_setitem r i true) h
      = (Ok tt, <[r := set_bitarray f
            (<[position (attr_m f) item seed := true]> (attr_bitarray f))]> h)).
    { read_attr E.
      rewrite (bind_Ok _ _ _ _ _ (py_mod_pos _ _ Hm _)).
      apply bitarray_setitem_in; [done | lia]. }
    bind_with Hstep.
    rewrite (IH _ _ (lookup_insert_eq _ _ _)).
    + rewrite insert_insert_eq. reflexivity.
    + split; simpl; [done | now rewrite length_insert].
Qed.

(** The two nested loops of [__init__] and [__call__]. *)
Lemma sample_loop_run r samples : ∀ f (h : heap),
  h !! r = Some f -> wf f ->
  for_each samples (fun sample =>
      k ← getattr r attr_k;
      for_each (range k) (fun seed =>
        m ← getattr r attr_m;
        i ← py_mod (mmh3_hash sample seed) m;
        bitarray_setitem r i true)) h
  = (Ok tt,
     <[r := set_bitarray f
              (add_items (attr_k f) (attr_m f) samples (attr_bitarray f))]> h).
Proof.
  induction samples as [|x samples IH]; intros f h E Hwf.
  - simpl. rewrite set_bitarray_id, insert_id; done.
  - cbn [for_each].
    assert (Hstep :
      (k ← getattr r attr_k;
       for_each (range k) (fun seed =>
         m ← getattr r attr_m;
         i ← py_mod (mmh3_hash x seed) m;
         bitarray_setitem r i true)) h
      = (Ok tt, <[r := set_bitarray f
            (set_positions (attr_m f) x (range (attr_k f)) (attr_bitarray f))]> h)).
    { read_attr E.
      now apply seed_loop_run. }
    bind_with Hstep.
    rewrite (IH _ _ (lookup_insert_eq _ _ _)).
    + rewrite insert_insert_eq. reflexivity.
    + apply wf_set_bitarray; [done | apply set_positions_length].
Qed.

(** [contains_loop] on a well-formed object never raises, leaves the store
    alone and answers whether every position of [item] is set. *)
Lemma contains_loop_run r item seeds : ∀ f (h : heap),
  h !! r = Some f -> wf f ->
  contains_loop r item seeds h
  = (Ok (all_set (attr_m f) item seeds (attr_bitarray f)), h).
Proof.
  intros f h E [Hm Hl].
  induction seeds as [|seed seeds IH]; [reflexivity|].
  cbn [contains_loop all_set forallb].
  pose proof (position_lt (attr_m f) item seed Hm) as Hpos.
  read_attr E.
  rewrite (bind_Ok _ _ _ _ _ (py_mod_pos _ _ Hm _)).
  assert (Hin : 0 <= mmh3_hash item seed mod attr_m f
                < Z.of_nat (length (attr_bitarray f))) by lia.
  rewrite (bind_Ok _ _ _ _ _ (bitarray_getitem_in _ _ _ _ E Hin)).
  fold (position (attr_m f) item seed).
  destruct (lookup_lt_is_Some_2 (attr_bitarray f) (position (attr_m f) item seed))
    as [v Hv]; [unfold position; lia|].
  rewrite (list_lookup_total_correct _ _ _ Hv), Hv.
  destruct v; simpl.
  - exact IH.
  - reflexivity.
Qed.

Lemma contains_run r item f (h : heap) :
  h !! r = Some f -> wf f ->
  __contains__ r item h
  = (Ok (all_set (attr_m f) item (range (attr_k f)) (attr_bitarray f)), h).
Proof.
  intros E Hwf. unfold __contains__.
  read_attr E.
  now apply contains_loop_run.
Qed.

Lemma or_positions_length other idxs bits :
  length (or_positions other idxs bits) = length bits.
Proof.
  revert bits. induction idxs as [|i idxs IH]; intros bits; [done|].
  unfold or_positions in *. simpl. rewrite IH. apply length_insert.
Qed.

(** After the indices [0 .. n-1], the first [n] bits are or-ed with those
    of [other] and the rest is as before. *)
Lemma or_positions_lookup other (n : nat) (bits : list bool) (j : nat) :
  or_positions other (range (Z.of_nat n)) bits !! j
  = if decide (j < n)%nat then (fun x => x || (other !!! j)) <$> bits !! j
    else bits !! j.
Proof.
  induction n as [|n IH].
  - simpl. destruct (decide (j < 0)%nat); [lia | done].
  - unfold range in *. rewrite seqZ_S. unfold or_positions in *.
    rewrite foldl_snoc. fold (or_positions other (seqZ 0 (Z.of_nat n)) bits) in *.
    rewrite Z.add_0_l, Nat2Z.id.
    set (prev := or_positions other (seqZ 0 (Z.of_nat n)) bits) in *.
    destruct (decide (j = n)) as [-> | Hne].
    + rewrite decide_False in IH by lia. rewrite decide_True by lia.
      destruct (bits !! n) as [x|] eqn:Hx.
      * rewrite list_lookup_insert_eq
          by (unfold prev; rewrite or_positions_length; eapply lookup_lt_Some; eassumption).
        rewrite (list_lookup_total_correct _ _ _ IH). reflexivity.
      * rewrite list_insert_ge
          by (unfold prev; rewrite or_positions_length; now apply lookup_ge_None).
        rewrite IH. reflexivity.
    + rewrite list_lookup_insert_ne by done. rewrite IH.
      destruct (decide (j < n)%nat), (decide (j < S n)%nat); try lia; reflexivity.
Qed.

(** The loop of the merge computes the position-wise or. *)
Lemma or_positions_range other bits m :
  length bits = Z.to_nat m -> length other = Z.to_nat m ->
  or_positions other (range m) bits = zip_with orb bits other.
Proof.
  intros Hb Ho.
  destruct (decide (m <= 0)) as [Hm | Hm].
  - unfold range. rewrite seqZ_nil by done. simpl.
    destruct bits; [done | simpl in Hb; lia].
  - rewrite <- (Z2Nat.id m) by lia.
    apply list_eq. intros j. rewrite or_positions_lookup, lookup_zip_with.
    destruct (decide (j < Z.to_nat m)%nat) as [Hj | Hj].
    + destruct (lookup_lt_is_Some_2 bits j) as [x Hx]; [lia|].
      destruct (lookup_lt_is_Some_2 other j) as [y Hy]; [lia|].
      rewrite Hx, Hy. simpl. now rewrite (list_lookup_total_correct _ _ _ Hy).
    + rewrite (lookup_ge_None_2 bits j) by lia. reflexivity.
Qed.

(** [for i in idxs: tmp.__bitarray[i] |= other.__bitarray[i]] for two
    distinct objects whose bit arrays cover the indices. *)
Lemma or_loop_run tmp other o idxs : ∀ t (h : heap),
  tmp ≠ other ->
  h !! tmp = Some t -> h !! other = Some o ->
  Forall (fun i => 0 <= i < Z.of_nat (length (attr_bitarray t))
                   ∧ i < Z.of_nat (length (attr_bitarray o))) idxs ->
  for_each idxs (fun i =>
      x ← bitarray_getitem tmp i;
      y ← bitarray_getitem other i;
      bitarray_setitem tmp i (x || y)) h
  = (Ok tt,
     <[tmp := set_bitarray t
                (or_positions (attr_bitarray o) idxs (attr_bitarray t))]> h).
Proof.
  induction idxs as [|i idxs IH]; intros t h Hne Et Eo Hidx.
  - simpl. rewrite set_bitarray_id, insert_id; done.
  - apply Forall_cons in Hidx as [[Hi1 Hi2] Hidx]. cbn [for_each].
    assert (Hstep :
      (x ← bitarray_getitem tmp i; y ← bitarray_getitem other i;
       bitarray_setitem tmp i (x || y)) h
      = (Ok tt, <[tmp := set_bitarray t
           (<[Z.to_nat i := (attr_bitarray t !!! Z.to_nat i)
                            || (attr_bitarray o !!! Z.to_nat i)]>
              (attr_bitarray t))]> h)).
    { rewrite (bind_Ok _ _ _ _ _ (bitarray_getitem_in _ _ _ _ Et Hi1)).
      assert (Hi3 : 0 <= i < Z.of_nat (length (attr_bitarray o))) by lia.
      rewrite (bind_Ok _ _ _ _ _ (bitarray_getitem_in _ _ _ _ Eo Hi3)).
      now apply bitarray_setitem_in. }
    bind_with Hstep.
    rewrite (IH _ _ Hne (lookup_insert_eq _ _ _)).
    + rewrite insert_insert_eq. reflexivity.
    + rewrite lookup_insert_ne by done. exact Eo.
    + simpl. rewrite length_insert. exact Hidx.
Qed.

(** ** The methods on well-formed objects *)

Lemma ln_neg epsilon : (0 < epsilon < 1)%R -> (ln epsilon < 0)%R.
Proof. intros [H0 H1]. rewrite <- ln_1. now apply ln_increasing. Qed.

Lemma ln2_pos : (0 < ln 2)%R.
Proof. rewrite <- ln_1. apply ln_increasing; lra. Qed.

Lemma init_b_pos epsilon : (0 < epsilon < 1)%R -> (0 < init_b epsilon)%R.
Proof.
  intros He. unfold init_b. pose proof (ln_neg _ He). pose proof ln2_pos.
  apply Rmult_lt_0_compat; [lra|]. apply Rinv_0_lt_compat.
  apply pow_lt. assumption.
Qed.

Lemma Zceil_pos x : (0 < x)%R -> 0 < Zceil x.
Proof.
  intros Hx. destruct (Zceil_bound x) as [_ Hu].
  apply lt_IZR. lra.
Qed.

Lemma init_m_pos n epsilon :
  (0 < n)%R -> (0 < epsilon < 1)%R -> 0 < init_m n epsilon.
Proof.
  intros Hn He. apply Zceil_pos.
  apply Rmult_lt_0_compat; [assumption | now apply init_b_pos].
Qed.

Lemma init_k_pos epsilon k :
  (0 < epsilon < 1)%R -> 0 <= k -> 0 < init_k epsilon k.
Proof.
  intros He Hk. unfold init_k. destruct (decide (k = 0)); [|lia].
  apply Zceil_pos. apply Rmult_lt_0_compat; [now apply init_b_pos | apply ln2_pos].
Qed.

Lemma init_object_wf n samples epsilon k :
  (0 < n)%R -> (0 < epsilon < 1)%R -> wf (init_object n samples epsilon k).
Proof.
  intros Hn He. split; simpl.
  - now apply init_m_pos.
  - now rewrite add_items_length, length_replicate.
Qed.

(** Construction with valid parameters. *)
Lemma init_run n samples epsilon k (h : heap) :
  (0 < n)%R -> (0 < epsilon < 1)%R ->
  __init__ n samples epsilon k h
  = (Ok (fresh (dom h)),
     <[fresh (dom h) := init_object n (samples_or_empty samples) epsilon k]> h).
Proof.
  intros Hn He. unfold __init__.
  destruct (Rle_dec n 0); [lra|].
  destruct (Rle_dec epsilon 0); [lra|].
  destruct (Rge_dec epsilon 1); [lra|].
  fold (init_b epsilon). fold (init_k epsilon k). fold (init_m n epsilon).
  set (f0 := Bloomfilter _ _ _ _ _ _).
  set (r := fresh (dom h)).
  assert (Halloc : alloc f0 h = (Ok r, <[r := f0]> h)) by reflexivity.
  bind_with Halloc.
  assert (Hwf0 : wf f0).
  { split; simpl; [now apply init_m_pos | now rewrite length_replicate]. }
  rewrite (bind_Ok _ _ _ _ _
             (sample_loop_run r _ f0 _ (lookup_insert_eq _ _ _) Hwf0)).
  rewrite insert_insert_eq. reflexivity.
Qed.

(** Construction with invalid parameters: an [InputException], the store
    is as before. *)
Lemma init_raise n samples epsilon k (h : heap) :
  (n <= 0)%R ∨ (epsilon <= 0)%R ∨ (1 <= epsilon)%R ->
  ∃ msg, __init__ n samples epsilon k h = (Raise (InputException msg), h).
Proof.
  intros Hbad. unfold __init__.
  destruct (Rle_dec n 0); [now eexists|].
  destruct (Rle_dec epsilon 0); [now eexists|].
  destruct (Rge_dec epsilon 1); [now eexists|].
  lra.
Qed.

Lemma deepcopy_run r f (h : heap) :
  h !! r = Some f ->
  deepcopy r h = (Ok (fresh (dom h)), <[fresh (dom h) := f]> h).
Proof.
  intros E. unfold deepcopy.
  now read_obj E.
Qed.

Lemma fresh_ne r f (h : heap) : h !! r = Some f -> fresh (dom h) ≠ r.
Proof. intros E Heq. rewrite <- Heq, fresh_None in E. discriminate. Qed.

(** Single-element insertion. *)
Lemma insert_run self item f (h : heap) :
  h !! self = Some f -> wf f ->
  __add__ self (Other item) h
  = (Ok (fresh (dom h)), <[fresh (dom h) := inserted f item]> h).
Proof.
  intros E Hwf. unfold __add__.
  set (tmp := fresh (dom h)).
  rewrite (bind_Ok _ _ _ _ _ (deepcopy_run _ _ _ E)). fold tmp.
  read_obj (lookup_insert_eq _ _ _).
  assert (Hst : store tmp (set_size f (attr_size f + 1)) (<[tmp := f]> h)
                = (Ok tt, <[tmp := set_size f (attr_size f + 1)]> h)).
  { unfold store. now rewrite insert_insert_eq. }
  bind_with Hst.
  read_attr (lookup_insert_eq _ _ _).
  rewrite (bind_Ok _ _ _ _ _
             (seed_loop_run tmp item _ _ _ (lookup_insert_eq _ _ _)
                (wf_set_size _ _ Hwf))).
  rewrite insert_insert_eq. reflexivity.
Qed.

(** Merge of two compatible filters. *)
Lemma merge_run self other s o (h : heap) :
  h !! self = Some s -> h !! other = Some o -> wf s -> wf o ->
  attr_k o = attr_k s -> attr_m o = attr_m s ->
  __add__ self (Filter other) h
  = (Ok (fresh (dom h)), <[fresh (dom h) := merged s o]> h).
Proof.
  intros Es Eo [Hms Hls] [Hmo Hlo] Hk Hm. unfold __add__.
  set (tmp := fresh (dom h)).
  assert (Hne : tmp ≠ other) by (eapply fresh_ne; eassumption).
  read_attr Eo.
  read_attr Es.
  rewrite decide_False by (intros H; apply H; exact Hk).
  read_attr Eo.
  read_attr Es.
  rewrite decide_False by (intros H; apply H; exact Hm).
  rewrite (bind_Ok _ _ _ _ _ (deepcopy_run _ _ _ Es)). fold tmp.
  read_obj (lookup_insert_eq _ _ _).
  assert (Eo' : <[tmp := s]> h !! other = Some o)
    by (now rewrite lookup_insert_ne).
  read_attr Eo'.
  assert (Hst : store tmp (set_size s (attr_size s + attr_size o)) (<[tmp := s]> h)
                = (Ok tt, <[tmp := set_size s (attr_size s + attr_size o)]> h)).
  { unfold store. now rewrite insert_insert_eq. }
  bind_with Hst.
  read_attr (lookup_insert_eq _ _ _).
  cbn [attr_m set_size].
  assert (Eo'' : <[tmp := set_size s (attr_size s + attr_size o)]> h !! other = Some o)
    by (now rewrite lookup_insert_ne).
  assert (Hidx : Forall
            (fun i => 0 <= i < Z.of_nat (length (attr_bitarray
                        (set_size s (attr_size s + attr_size o))))
                      ∧ i < Z.of_nat (length (attr_bitarray o)))
            (range (attr_m s))).
  { apply Forall_forall. intros i Hi. apply elem_of_seqZ in Hi.
    cbn [attr_bitarray set_size]. lia. }
  rewrite (bind_Ok _ _ _ _ _
             (or_loop_run tmp other o (range (attr_m s)) _ _ Hne
                (lookup_insert_eq _ _ _) Eo'' Hidx)).
  rewrite insert_insert_eq. cbn [attr_bitarray set_size].
  rewrite or_positions_range by congruence. reflexivity.
Qed.

(** Merge of two filters that differ in [k] or [m]: an [InputException],
    the store is as before. *)
Lemma merge_raise self other s o (h : heap) :
  h !! self = Some s -> h !! other = Some o ->
  attr_k o ≠ attr_k s ∨ attr_m o ≠ attr_m s ->
  ∃ msg, msg ∈ [msg_k; msg_m] ∧
         __add__ self (Filter other) h = (Raise (InputException msg), h).
Proof.
  intros Es Eo Hdiff. unfold __add__.
  read_attr Eo.
  read_attr Es.
  destruct (decide (attr_k o ≠ attr_k s)) as [Hk | Hk].
  { exists msg_k. split; [constructor | reflexivity]. }
  read_attr Eo.
  read_attr Es.
  destruct (decide (attr_m o ≠ attr_m s)) as [Hm | Hm].
  { exists msg_m. split; [do 2 constructor | reflexivity]. }
  tauto.
Qed.

(** Bulk population of an object with no bit set. *)
Lemma call_run self samples f (h : heap) :
  h !! self = Some f -> wf f -> bitarray_any (attr_bitarray f) = false ->
  __call__ self samples h
  = (Ok tt, <[self := populated f (samples_or_empty samples)]> h).
Proof.
  intros E Hwf Hany. unfold __call__.
  read_attr E. rewrite Hany.
  read_obj E.
  set (f1 := set_size f _).
  assert (Hst : store self f1 h = (Ok tt, <[self := f1]> h)) by reflexivity.
  bind_with Hst.
  rewrite (sample_loop_run self _ f1 _ (lookup_insert_eq _ _ _)
             (wf_set_size _ _ Hwf)).
  rewrite insert_insert_eq. reflexivity.
Qed.

(** Bulk population of an object with a bit set: an [InputException], the
    store is as before. *)
Lemma call_raise self samples f (h : heap) :
  h !! self = Some f -> bitarray_any (attr_bitarray f) = true ->
  __call__ self samples h = (Raise (InputException msg_call), h).
Proof.
  intros E Hany. unfold __call__.
  read_attr E. now rewrite Hany.
Qed.

(** ** Bits are only ever set *)

Lemma bits_le_refl bits : bits_le bits bits.
Proof. intros j H. exact H. Qed.

Lemma bits_le_trans b1 b2 b3 : bits_le b1 b2 -> bits_le b2 b3 -> bits_le b1 b3.
Proof. intros H12 H23 j H. apply H23, H12, H. Qed.

Lemma bits_le_insert bits i : bits_le bits (<[i := true]> bits).
Proof.
  intros j H. destruct (decide (i = j)) as [-> | Hne].
  - rewrite list_lookup_insert_eq; [done | eapply lookup_lt_Some; eassumption].
  - now rewrite list_lookup_insert_ne.
Qed.

Lemma set_positions_le m item seeds bits :
  bits_le bits (set_positions m item seeds bits).
Proof.
  revert bits. induction seeds as [|s seeds IH]; intros bits; [apply bits_le_refl|].
  unfold set_positions in *. simpl.
  eapply bits_le_trans; [apply bits_le_insert | apply IH].
Qed.

Lemma add_items_le k m items bits : bits_le bits (add_items k m items bits).
Proof.
  revert bits. induction items as [|x items IH]; intros bits; [apply bits_le_refl|].
  unfold add_items in *. simpl.
  eapply bits_le_trans; [apply set_positions_le | apply IH].
Qed.

Lemma zip_orb_le_l (bits other : list bool) :
  length bits = length other -> bits_le bits (zip_with orb bits other).
Proof.
  intros Hlen j H. rewrite lookup_zip_with, H. simpl.
  destruct (lookup_lt_is_Some_2 other j) as [y Hy].
  { rewrite <- Hlen. eapply lookup_lt_Some; eassumption. }
  now rewrite Hy.
Qed.

Lemma zip_orb_le_r (bits other : list bool) :
  length bits = length other -> bits_le other (zip_with orb bits other).
Proof.
  intros Hlen j H. rewrite lookup_zip_with, H.
  destruct (lookup_lt_is_Some_2 bits j) as [x Hx].
  { rewrite Hlen. eapply lookup_lt_Some; eassumption. }
  rewrite Hx. simpl. now rewrite orb_true_r.
Qed.

Lemma all_set_true m item seeds bits :
  all_set m item seeds bits = true
  ↔ ∀ seed, seed ∈ seeds → bits !! position m item seed = Some true.
Proof.
  unfold all_set. rewrite forallb_forall. split.
  - intros H seed Hin. apply list_elem_of_In in Hin.
    apply H in Hin. now apply bool_decide_eq_true in Hin.
  - intros H seed Hin. apply bool_decide_eq_true, H. now apply list_elem_of_In.
Qed.

Lemma all_set_le m item seeds bits bits' :
  bits_le bits bits' ->
  all_set m item seeds bits = true -> all_set m item seeds bits' = true.
Proof.
  intros Hle. rewrite !all_set_true. intros H seed Hin. apply Hle, H, Hin.
Qed.

(** After the loop over the seeds every position of the item is set. *)
Lemma all_set_set_positions m item seeds bits :
  0 < m -> length bits = Z.to_nat m ->
  all_set m item seeds (set_positions m item seeds bits) = true.
Proof.
  intros Hm. revert bits.
  induction seeds as [|s seeds IH]; intros bits Hlen; [reflexivity|].
  apply all_set_true. intros seed Hin.
  unfold set_positions. simpl. fold (set_positions m item seeds
    (<[position m item s := true]> bits)).
  apply elem_of_cons in Hin as [-> | Hin].
  - apply set_positions_le. apply list_lookup_insert_eq.
    pose proof (position_lt m item s Hm). unfold position. lia.
  - specialize (IH (<[position m item s := true]> bits)).
    rewrite length_insert in IH. specialize (IH Hlen).
    rewrite all_set_true in IH. now apply IH.
Qed.

Lemma all_set_add_items k m items item bits :
  0 < m -> length bits = Z.to_nat m -> item ∈ items ->
  all_set m item (range k) (add_items k m items bits) = true.
Proof.
  intros Hm. revert bits.
  induction items as [|x items IH]; intros bits Hlen Hin.
  - now apply elem_of_nil in Hin.
  - unfold add_items. simpl.
    fold (add_items k m items (set_positions m x (range k) bits)).
    apply elem_of_cons in Hin as [-> | Hin].
    + eapply all_set_le; [apply add_items_le|].
      now apply all_set_set_positions.
    + apply IH; [|done]. now rewrite set_positions_length.
Qed.

(** No seed, nothing to set and nothing to check. *)
Lemma range_nonpos k : k <= 0 -> range k = [].
Proof. intros Hk. unfold range. now apply seqZ_nil. Qed.

Lemma add_items_no_seed k m items bits :
  k <= 0 -> add_items k m items bits = bits.
Proof.
  intros Hk. induction items as [|x items IH]; [reflexivity|].
  unfold add_items in *. simpl. rewrite (range_nonpos k Hk) in *. exact IH.
Qed.

Lemma bitarray_any_false bits :
  bitarray_any bits = false ↔ ∀ j, bits !! j ≠ Some true.
Proof.
  unfold bitarray_any. induction bits as [|v bits IH]; simpl.
  - split; [intros _ j; rewrite lookup_nil; discriminate | reflexivity].
  - rewrite orb_false_iff, IH. split.
    + intros [-> H] [|j]; simpl; [discriminate | apply H].
    + intros H. split.
      * specialize (H 0%nat). simpl in H. destruct v; congruence.
      * intros j. apply (H (S j)).
Qed.

Lemma bitarray_any_true bits :
  bitarray_any bits = true ↔ ∃ j, bits !! j = Some true.
Proof.
  destruct (bitarray_any bits) eqn:E.
  - split; [intros _ | done].
    unfold bitarray_any in E. apply existsb_exists in E as [v [Hin ->]].
    apply list_elem_of_In, list_elem_of_lookup in Hin. exact Hin.
  - split; [discriminate|]. intros [j Hj].
    rewrite bitarray_any_false in E. now destruct (E j).
Qed.

Lemma bitarray_any_replicate n : bitarray_any (replicate n false) = false.
Proof.
  apply bitarray_any_false. intros j H.
  apply lookup_replicate in H as [H _]. discriminate.
Qed.

(** ** Calls on a reference to no object *)

Lemma add_dangling self other (h : heap) :
  h !! self = None -> __add__ self other h = (Raise Dangling, h).
Proof.
  intros E. unfold __add__. destruct other as [other | item].
  - destruct (h !! other) as [o|] eqn:Eo.
    + read_attr Eo.
      now rewrite (bind_Raise _ _ _ _ _ (getattr_None _ _ _ E)).
    + now rewrite (bind_Raise _ _ _ _ _ (getattr_None _ _ _ Eo)).
  - unfold deepcopy.
    assert (Hl : (load self ≫= alloc) h = (Raise Dangling, h))
      by (now rewrite (bind_Raise _ _ _ _ _ (load_None _ _ E))).
    now rewrite (bind_Raise _ _ _ _ _ Hl).
Qed.

Lemma merge_dangling self other (h : heap) :
  h !! other = None -> __add__ self (Filter other) h = (Raise Dangling, h).
Proof.
  intros E. unfold __add__.
  now rewrite (bind_Raise _ _ _ _ _ (getattr_None _ _ _ E)).
Qed.

Lemma call_dangling self samples (h : heap) :
  h !! self = None -> __call__ self samples h = (Raise Dangling, h).
Proof.
  intros E. unfold __call__.
  now rewrite (bind_Raise _ _ _ _ _ (getattr_None _ _ _ E)).
Qed.

(** ** The invariant of client programs *)

Lemma heap_wf_insert (h : heap) r f :
  heap_wf h -> wf f -> heap_wf (<[r := f]> h).
Proof.
  intros Hh Hf r' f' E. destruct (decide (r = r')) as [-> | Hne].
  - rewrite lookup_insert_eq in E. injection E as <-. exact Hf.
  - rewrite lookup_insert_ne in E by done. eapply Hh, E.
Qed.

Lemma members_insert_eq (g : gmap nat (list Item)) r xs :
  members (<[r := xs]> g) r = xs.
Proof. unfold members. now rewrite lookup_insert_eq. Qed.

Lemma members_insert_ne (g : gmap nat (list Item)) r r' xs :
  r ≠ r' -> members (<[r := xs]> g) r' = members g r'.
Proof. intros Hne. unfold members. now rewrite lookup_insert_ne. Qed.

(** Replacing or adding one object keeps the invariant when the new
    object is well formed and has the positions of its recorded items set. *)
Lemma inv_insert (h : heap) (g : gmap nat (list Item)) r f xs :
  inv (h, g) -> wf f ->
  (∀ x, x ∈ xs → all_set (attr_m f) x (range (attr_k f)) (attr_bitarray f) = true) ->
  inv (<[r := f]> h, <[r := xs]> g).
Proof.
  intros [Hwf Hin] Hf Hxs. split; simpl in *.
  - now apply heap_wf_insert.
  - intros r' x Hx. destruct (decide (r = r')) as [<- | Hne].
    + rewrite members_insert_eq in Hx. exists f.
      rewrite lookup_insert_eq. split; [done | now apply Hxs].
    + rewrite members_insert_ne in Hx by done.
      rewrite lookup_insert_ne by done. now apply Hin.
Qed.

Lemma inv_step st c : inv st -> inv (step st c).
Proof.
  destruct st as [h g]. intros Hinv. pose proof Hinv as [Hwf Hin].
  simpl in Hwf, Hin.
  destruct c as [n samples epsilon k | self item | self samples | self other];
    cbn [step].
  - (* construction *)
    case_parameters n epsilon.
    + rewrite init_run by (try split; assumption).
      apply inv_insert; [done | apply init_object_wf; (try split; assumption) |].
      intros x Hx. cbn [init_object attr_m attr_k attr_bitarray].
      apply all_set_add_items;
        [apply init_m_pos; (try split; assumption)
        | apply length_replicate | exact Hx].
    + destruct (init_raise n samples epsilon k h) as [msg ->]; [auto | done].
    + destruct (init_raise n samples epsilon k h) as [msg ->]; [auto | done].
    + destruct (init_raise n samples epsilon k h) as [msg ->]; [auto | done].
  - (* insertion of one item *)
    destruct (h !! self) as [f|] eqn:E.
    + pose proof (Hwf _ _ E) as Hf. pose proof Hf as [Hm Hl].
      rewrite (insert_run _ _ _ _ E Hf).
      apply inv_insert; [done | |].
      * apply wf_set_bitarray; [now apply wf_set_size|].
        apply set_positions_length.
      * intros x Hx. cbn [inserted attr_m attr_k attr_bitarray set_bitarray set_size].
        apply elem_of_cons in Hx as [-> | Hx].
        -- now apply all_set_set_positions.
        -- destruct (Hin _ _ Hx) as [f' [E' Hset]].
           rewrite E in E'. inversion E'; subst f'.
           eapply all_set_le; [apply set_positions_le | exact Hset].
    + now rewrite add_dangling.
  - (* bulk population *)
    destruct (h !! self) as [f|] eqn:E.
    + pose proof (Hwf _ _ E) as Hf. pose proof Hf as [Hm Hl].
      destruct (bitarray_any (attr_bitarray f)) eqn:Hany.
      * now rewrite (call_raise _ _ _ _ E Hany).
      * rewrite (call_run _ _ _ _ E Hf Hany).
        apply inv_insert; [done | |].
        -- apply wf_set_bitarray; [now apply wf_set_size|].
           apply add_items_length.
        -- intros x Hx.
           cbn [populated attr_m attr_k attr_bitarray set_bitarray set_size].
           apply elem_of_app in Hx as [Hx | Hx].
           ++ destruct (Hin _ _ Hx) as [f' [E' Hset]].
              rewrite E in E'. inversion E'; subst f'.
              eapply all_set_le; [apply add_items_le | exact Hset].
           ++ now apply all_set_add_items.
    + now rewrite call_dangling.
  - (* merge *)
    destruct (h !! other) as [o|] eqn:Eo; [| now rewrite merge_dangling].
    destruct (h !! self) as [s|] eqn:Es; [| now rewrite add_dangling].
    pose proof (Hwf _ _ Es) as Hs. pose proof (Hwf _ _ Eo) as Ho.
    destruct (decide (attr_k o = attr_k s)) as [Hk | Hk];
      [destruct (decide (attr_m o = attr_m s)) as [Hm | Hm] |].
    + rewrite (merge_run _ _ _ _ _ Es Eo Hs Ho Hk Hm).
      destruct Hs as [Hms Hls], Ho as [Hmo Hlo].
      assert (Hlen : length (attr_bitarray s) = length (attr_bitarray o))
        by congruence.
      apply inv_insert; [done | |].
      * split; cbn [merged attr_m attr_bitarray set_bitarray set_size]; [done|].
        rewrite length_zip_with. lia.
      * intros x Hx. cbn [merged attr_m attr_k attr_bitarray set_bitarray set_size].
        apply elem_of_app in Hx as [Hx | Hx].
        -- destruct (Hin _ _ Hx) as [f' [E' Hset]].
           rewrite Es in E'. inversion E'; subst f'.
           eapply all_set_le; [now apply zip_orb_le_l | exact Hset].
        -- destruct (Hin _ _ Hx) as [f' [E' Hset]].
           rewrite Eo in E'. inversion E'; subst f'.
           eapply all_set_le; [now apply zip_orb_le_r|].
           now rewrite <- Hk, <- Hm.
    + destruct (merge_raise _ _ _ _ _ Es Eo (or_intror Hm)) as [msg [_ ->]]. done.
    + destruct (merge_raise _ _ _ _ _ Es Eo (or_introl Hk)) as [msg [_ ->]]. done.
Qed.

Lemma inv_run cs : inv (run cs).
Proof.
  unfold run. induction cs as [|c cs IH] using rev_ind.
  - split; simpl.
    + intros r f E. now rewrite lookup_empty in E.
    + intros r x Hx. unfold members in Hx. rewrite lookup_empty in Hx.
      now apply elem_of_nil in Hx.
  - rewrite foldl_snoc. now apply inv_step.
Qed.

(** ** Bounds on [ln 2] and [ln 100]

    [1 + x <= exp x] gives [(1 + x / 2^k) ^ (2^k) <= exp x]; the power is
    computed by [k] squarings in fixed point, each rounded down. *)

Section ExpBounds.
Local Open Scope R_scope.

Lemma fsq_nonneg s a : (0 < s)%Z -> (0 <= fsq s a)%Z.
Proof. intros Hs. unfold fsq. apply Z.div_pos; nia. Qed.

Lemma fsq_sound s a x :
  (0 < s)%Z -> (0 <= a)%Z -> IZR a / IZR s <= x ->
  IZR (fsq s a) / IZR s <= x * x.
Proof.
  intros Hs Ha Hx.
  assert (HS : 0 < IZR s) by (apply IZR_lt; lia).
  assert (H0 : 0 <= IZR a / IZR s).
  { apply Rmult_le_pos; [apply IZR_le; lia | left; apply Rinv_0_lt_compat; lra]. }
  apply Rle_trans with ((IZR a / IZR s) * (IZR a / IZR s));
    [| apply Rmult_le_compat; lra].
  assert (Hq : IZR (fsq s a) * IZR s <= IZR a * IZR a).
  { rewrite <- !mult_IZR. apply IZR_le. unfold fsq.
    rewrite Z.mul_comm. apply Z.mul_div_le. lia. }
  unfold Rdiv.
  apply Rmult_le_reg_r with (IZR s); [lra|].
  replace (IZR (fsq s a) * / IZR s * IZR s) with (IZR (fsq s a))
    by (field; lra).
  replace (IZR a * / IZR s * (IZR a * / IZR s) * IZR s)
    with (IZR a * IZR a * / IZR s) by (field; lra).
  apply Rmult_le_reg_r with (IZR s); [lra|].
  replace (IZR a * IZR a * / IZR s * IZR s) with (IZR a * IZR a)
    by (field; lra).
  exact Hq.
Qed.

Lemma fpow2_sound s k : (0 < s)%Z -> forall a x,
  (0 <= a)%Z -> IZR a / IZR s <= exp x ->
  IZR (fpow2 s k a) / IZR s <= exp (2 ^ k * x).
Proof.
  intros Hs. induction k as [|k IH]; intros a x Ha Hx; simpl.
  - now rewrite Rmult_1_l.
  - replace (2 * 2 ^ k * x) with (2 ^ k * (x + x)) by ring.
    apply IH; [now apply fsq_nonneg|].
    rewrite exp_plus. now apply fsq_sound.
Qed.

Lemma scale_pos k t : (0 < t)%Z -> (0 < scale k t)%Z.
Proof.
  intros Ht. unfold scale.
  apply Z.mul_pos_pos; [apply Z.pow_pos_nonneg; lia | lia].
Qed.

(** [exp (u / t)] is at least the [k]-fold square of [1 + u / (2^k t)]. *)
Lemma exp_lower (k : nat) (t u : Z) :
  (0 < t)%Z -> (0 <= scale k t + u)%Z ->
  IZR (fpow2 (scale k t) k (scale k t + u)) / IZR (scale k t)
  <= exp (IZR u / IZR t).
Proof.
  intros Ht Hu.
  pose proof (scale_pos k t Ht) as Hs.
  assert (HS : 0 < IZR (scale k t)) by (apply IZR_lt; lia).
  assert (HT : 0 < IZR t) by (apply IZR_lt; lia).
  replace (IZR u / IZR t) with (2 ^ k * (IZR u / IZR (scale k t))).
  - apply fpow2_sound; try assumption.
    rewrite plus_IZR.
    replace ((IZR (scale k t) + IZR u) / IZR (scale k t))
      with (1 + IZR u / IZR (scale k t)) by (field; lra).
    apply exp_ineq1_le.
  - unfold scale. rewrite mult_IZR.
    assert (E : IZR (2 ^ Z.of_nat k) = 2 ^ k) by (now rewrite <- pow_IZR).
    rewrite E. field. split; [lra|]. apply pow_nonzero. lra.
Qed.

Lemma ln_upper (k : nat) (z t u : Z) :
  (0 < z)%Z -> (0 < t)%Z -> (0 <= scale k t + u)%Z ->
  (z * scale k t < fpow2 (scale k t) k (scale k t + u))%Z ->
  ln (IZR z) < IZR u / IZR t.
Proof.
  intros Hz Ht Hu Hc.
  assert (HZ : 0 < IZR z) by (apply IZR_lt; lia).
  pose proof (scale_pos k t Ht) as Hs.
  assert (HS : 0 < IZR (scale k t)) by (apply IZR_lt; lia).
  apply exp_lt_inv. rewrite exp_ln by assumption.
  eapply Rlt_le_trans; [| apply (exp_lower k t u); assumption].
  apply Rmult_lt_reg_r with (IZR (scale k t)); [assumption|].
  unfold Rdiv. rewrite Rmult_assoc, Rinv_l, Rmult_1_r by lra.
  rewrite <- mult_IZR. now apply IZR_lt.
Qed.

Lemma ln_lower (k : nat) (z t u : Z) :
  (0 < z)%Z -> (0 < t)%Z -> (0 <= scale k t - u)%Z ->
  (scale k t < z * fpow2 (scale k t) k (scale k t - u))%Z ->
  IZR u / IZR t < ln (IZR z).
Proof.
  intros Hz Ht Hu Hc.
  assert (HZ : 0 < IZR z) by (apply IZR_lt; lia).
  assert (HT : 0 < IZR t) by (apply IZR_lt; lia).
  pose proof (scale_pos k t Ht) as Hs.
  assert (HS : 0 < IZR (scale k t)) by (apply IZR_lt; lia).
  apply exp_lt_inv. rewrite exp_ln by assumption.
  pose proof (exp_lower k t (- u) Ht) as Hl.
  replace (scale k t + - u)%Z with (scale k t - u)%Z in Hl by lia.
  specialize (Hl Hu).
  replace (IZR (- u) / IZR t) with (- (IZR u / IZR t)) in Hl
    by (rewrite opp_IZR; field; lra).
  rewrite exp_Ropp in Hl.
  set (c := fpow2 (scale k t) k (scale k t - u)) in *.
  assert (Hc' : IZR (scale k t) < IZR z * IZR c)
    by (rewrite <- mult_IZR; now apply IZR_lt).
  pose proof (exp_pos (IZR u / IZR t)) as He.
  set (e := exp (IZR u / IZR t)) in *.
  assert (H1 : / IZR z < IZR c / IZR (scale k t)).
  { apply Rmult_lt_reg_r with (IZR (scale k t)); [assumption|].
    unfold Rdiv. rewrite Rmult_assoc, Rinv_l, Rmult_1_r by lra.
    apply Rmult_lt_reg_l with (IZR z); [assumption|].
    rewrite <- Rmult_assoc, Rinv_r, Rmult_1_l by lra. assumption. }
  assert (H2 : / IZR z < / e) by lra.
  destruct (Rlt_le_dec e (IZR z)) as [Hlt | Hge]; [exact Hlt|].
  apply Rinv_le_contravar in Hge; lra.
Qed.

Lemma ln2_upper : ln 2 < 693148 / 1000000.
Proof. apply (ln_upper 40 2 1000000 693148); vm_compute; congruence. Qed.

Lemma ln2_lower : 693147 / 1000000 < ln 2.
Proof. apply (ln_lower 40 2 1000000 693147); vm_compute; congruence. Qed.

Lemma ln100_upper : ln 100 < 460518 / 100000.
Proof. apply (ln_upper 40 100 100000 460518); vm_compute; congruence. Qed.

Lemma ln100_lower : 460517 / 100000 < ln 100.
Proof. apply (ln_lower 40 100 100000 460517); vm_compute; congruence. Qed.

(** The example of the specification: [n = 1000], [epsilon = 0.01]. *)
Lemma init_b_example :
  958503 / 100000 < init_b (1 / 100) < 95851 / 10000.
Proof.
  unfold init_b.
  replace (1 / 100) with (/ 100) by lra.
  rewrite ln_Rinv by lra. rewrite Ropp_involutive.
  pose proof ln2_upper as U2. pose proof ln2_lower as L2.
  pose proof ln100_upper as U100. pose proof ln100_lower as L100.
  assert (Hsq : 0 < ln 2 ^ 2) by (apply pow_lt; lra).
  assert (Hlo : (693147 / 1000000) ^ 2 < ln 2 ^ 2).
  { simpl. rewrite !Rmult_1_r. apply Rmult_le_0_lt_compat; lra. }
  assert (Hhi : ln 2 ^ 2 < (693148 / 1000000) ^ 2).
  { simpl. rewrite !Rmult_1_r. apply Rmult_le_0_lt_compat; lra. }
  split.
  - apply Rmult_lt_reg_r with (ln 2 ^ 2); [assumption|].
    unfold Rdiv at 2. rewrite Rmult_assoc, Rinv_l, Rmult_1_r by lra. lra.
  - apply Rmult_lt_reg_r with (ln 2 ^ 2); [assumption|].
    unfold Rdiv at 1. rewrite Rmult_assoc, Rinv_l, Rmult_1_r by lra. lra.
Qed.

(** The example does not depend on exact arithmetic: any value within
    [1/100000] of [b], with any value within [1/1000000] of [ln 2], gives
    the same [m] and [k]. *)
Lemma example_robust (b' l2' : R) :
  Rabs (b' - init_b (1 / 100)) <= 1 / 100000 ->
  Rabs (l2' - ln 2) <= 1 / 1000000 ->
  Zceil (1000 * b') = 9586%Z ∧ Zceil (b' * l2') = 7%Z.
Proof.
  intros Hb Hl.
  pose proof init_b_example as [Bl Bu].
  pose proof ln2_upper as U2. pose proof ln2_lower as L2.
  unfold Rabs in Hb, Hl.
  destruct (Rcase_abs (b' - init_b (1 / 100))), (Rcase_abs (l2' - ln 2)).
  all: assert (Hb9 : 958502 / 100000 <= b' <= 958511 / 100000) by lra.
  all: assert (Hl2 : 69 / 100 <= l2' <= 7 / 10) by lra.
  all: clear Hb Hl.
  all: split; apply Zceil_eq; [lra | split].
  all: try (apply Rlt_le_trans with (9 * (69 / 100)); [lra|];
            apply Rmult_le_compat; lra).
  all: apply Rle_trans with (10 * (7 / 10)); [| lra];
       apply Rmult_le_compat; lra.
Qed.

Lemma init_m_example : init_m 1000 (1 / 100) = 9586%Z.
Proof.
  unfold init_m. apply Zceil_eq.
  pose proof init_b_example. lra.
Qed.

Lemma init_k_example : init_k (1 / 100) 0 = 7%Z.
Proof.
  unfold init_k. rewrite decide_True by reflexivity.
  apply Zceil_eq. unfold init_b.
  replace (1 / 100) with (/ 100) by lra.
  rewrite ln_Rinv by lra. rewrite Ropp_involutive.
  pose proof ln2_upper as U2. pose proof ln2_lower as L2.
  pose proof ln100_upper as U100. pose proof ln100_lower as L100.
  replace (ln 100 / ln 2 ^ 2 * ln 2) with (ln 100 / ln 2) by (field; lra).
  split.
  - apply Rmult_lt_reg_r with (ln 2); [lra|].
    unfold Rdiv. rewrite Rmult_assoc, Rinv_l, Rmult_1_r by lra. lra.
  - apply Rmult_le_reg_r with (ln 2); [lra|].
    unfold Rdiv. rewrite Rmult_assoc, Rinv_l, Rmult_1_r by lra. lra.
Qed.

End ExpBounds.

(** ** Exactly the positions of the items are set *)

Lemma insert_true_lookup (bits : list bool) p j :
  <[p := true]> bits !! j = Some true
  ↔ bits !! j = Some true ∨ (j = p ∧ (j < length bits)%nat).
Proof.
  destruct (decide (p = j)) as [-> | Hne].
  - split.
    + intros H. right. split; [done|].
      apply lookup_lt_Some in H. now rewrite length_insert in H.
    + intros [H | [_ H]].
      * apply list_lookup_insert_eq. eapply lookup_lt_Some, H.
      * now apply list_lookup_insert_eq.
  - rewrite list_lookup_insert_ne by done. split; [auto|].
    intros [H | [H _]]; [done | congruence].
Qed.

Lemma set_positions_lookup m item seeds : ∀ bits j,
  set_positions m item seeds bits !! j = Some true
  ↔ bits !! j = Some true
    ∨ ((j < length bits)%nat ∧ ∃ seed, seed ∈ seeds ∧ j = position m item seed).
Proof.
  induction seeds as [|s seeds IH]; intros bits j.
  - simpl. split; [auto|]. intros [H | [_ [seed [Hin _]]]]; [done|].
    now apply elem_of_nil in Hin.
  - unfold set_positions. simpl.
    fold (set_positions m item seeds (<[position m item s := true]> bits)).
    rewrite IH, insert_true_lookup, length_insert. split.
    + intros [[H | [-> Hlt]] | [Hlt [seed [Hin ->]]]].
      * now left.
      * right. split; [done|]. exists s. split; [apply list_elem_of_here | done].
      * right. split; [done|]. exists seed. split; [now apply list_elem_of_further | done].
    + intros [H | [Hlt [seed [Hin ->]]]].
      * now left; left.
      * apply elem_of_cons in Hin as [-> | Hin].
        -- left; right. done.
        -- right. split; [done|]. now exists seed.
Qed.

Lemma add_items_lookup k m items : ∀ bits j,
  add_items k m items bits !! j = Some true
  ↔ bits !! j = Some true
    ∨ ((j < length bits)%nat
       ∧ ∃ x seed, x ∈ items ∧ seed ∈ range k ∧ j = position m x seed).
Proof.
  induction items as [|y items IH]; intros bits j.
  - simpl. split; [auto|]. intros [H | [_ [x [seed [Hin _]]]]]; [done|].
    now apply elem_of_nil in Hin.
  - unfold add_items. simpl.
    fold (add_items k m items (set_positions m y (range k) bits)).
    rewrite IH, set_positions_lookup, set_positions_length. split.
    + intros [[H | [Hlt [seed [Hin ->]]]] | [Hlt [x [seed [Hx [Hin ->]]]]]].
      * now left.
      * right. split; [done|]. exists y, seed.
        split; [apply list_elem_of_here | done].
      * right. split; [done|]. exists x, seed.
        split; [now apply list_elem_of_further | done].
    + intros [H | [Hlt [x [seed [Hx [Hin ->]]]]]].
      * now left; left.
      * apply elem_of_cons in Hx as [-> | Hx].
        -- left; right. split; [done|]. now exists seed.
        -- right. split; [done|]. now exists x, seed.
Qed.

(** A bit that is no position of the item is as before. *)
Lemma set_positions_other m item seeds : ∀ bits j,
  (∀ seed, seed ∈ seeds → j ≠ position m item seed) ->
  set_positions m item seeds bits !! j = bits !! j.
Proof.
  induction seeds as [|s seeds IH]; intros bits j Hj; [reflexivity|].
  unfold set_positions. simpl.
  fold (set_positions m item seeds (<[position m item s := true]> bits)).
  rewrite IH by (intros seed Hin; apply Hj; now apply list_elem_of_further).
  apply list_lookup_insert_ne. intros Heq. symmetry in Heq. revert Heq.
  apply Hj, list_elem_of_here.
Qed.

(** With a seed and an item, a bit is set afterwards. *)
Lemma add_items_any k m items bits :
  0 < m -> length bits = Z.to_nat m -> 0 < k -> items ≠ [] ->
  bitarray_any (add_items k m items bits) = true.
Proof.
  intros Hm Hlen Hk Hne. destruct items as [|x items]; [done|].
  apply bitarray_any_true. exists (position m x 0).
  apply add_items_lookup. right. split.
  - pose proof (position_lt m x 0 Hm). unfold position. lia.
  - exists x, 0. split; [apply list_elem_of_here|]. split; [|done].
    apply elem_of_seqZ. lia.
Qed.

(** ** Objects with a negative [k] *)

Lemma set_positions_no_seed k m item bits :
  k <= 0 -> set_positions m item (range k) bits = bits.
Proof. intros Hk. now rewrite range_nonpos. Qed.

Lemma zip_orb_any (bits other : list bool) :
  bitarray_any bits = false -> bitarray_any other = false ->
  bitarray_any (zip_with orb bits other) = false.
Proof.
  rewrite !bitarray_any_false. intros Hb Ho j Hj.
  apply lookup_zip_with_Some in Hj as [x [y [Hxy [Hx Hy]]]].
  symmetry in Hxy. apply orb_true_iff in Hxy as [-> | ->].
  - now destruct (Hb j).
  - now destruct (Ho j).
Qed.

Lemma negative_k_clear_insert (h : heap) r f :
  negative_k_clear h ->
  (attr_k f < 0 -> bitarray_any (attr_bitarray f) = false) ->
  negative_k_clear (<[r := f]> h).
Proof.
  intros Hh Hf r' f' E Hk. destruct (decide (r = r')) as [-> | Hne].
  - rewrite lookup_insert_eq in E. injection E as <-. now apply Hf.
  - rewrite lookup_insert_ne in E by done. eapply Hh; eassumption.
Qed.

Lemma negative_k_clear_step h g c :
  heap_wf h -> negative_k_clear h -> negative_k_clear (step (h, g) c).1.
Proof.
  intros Hwf Hclear.
  destruct c as [n samples epsilon k | self item | self samples | self other];
    cbn [step].
  - case_parameters n epsilon.
    + rewrite init_run by (try split; assumption). cbn [fst].
      apply negative_k_clear_insert; [done|].
      cbn [init_object attr_k attr_bitarray]. intros Hk.
      rewrite add_items_no_seed by lia. apply bitarray_any_replicate.
    + destruct (init_raise n samples epsilon k h) as [msg ->]; [auto | done].
    + destruct (init_raise n samples epsilon k h) as [msg ->]; [auto | done].
    + destruct (init_raise n samples epsilon k h) as [msg ->]; [auto | done].
  - destruct (h !! self) as [f|] eqn:E; [| now rewrite add_dangling].
    rewrite (insert_run _ _ _ _ E (Hwf _ _ E)). cbn [fst].
    apply negative_k_clear_insert; [done|].
    cbn [inserted attr_k attr_bitarray set_bitarray set_size]. intros Hk.
    rewrite set_positions_no_seed by lia. now apply (Hclear _ _ E).
  - destruct (h !! self) as [f|] eqn:E; [| now rewrite call_dangling].
    destruct (bitarray_any (attr_bitarray f)) eqn:Hany.
    + now rewrite (call_raise _ _ _ _ E Hany).
    + rewrite (call_run _ _ _ _ E (Hwf _ _ E) Hany). cbn [fst].
      apply negative_k_clear_insert; [done|].
      cbn [populated attr_k attr_bitarray set_bitarray set_size]. intros Hk.
      now rewrite add_items_no_seed by lia.
  - destruct (h !! other) as [o|] eqn:Eo; [| now rewrite merge_dangling].
    destruct (h !! self) as [s|] eqn:Es; [| now rewrite add_dangling].
    destruct (decide (attr_k o = attr_k s)) as [Hk | Hk];
      [destruct (decide (attr_m o = attr_m s)) as [Hm | Hm] |].
    + rewrite (merge_run _ _ _ _ _ Es Eo (Hwf _ _ Es) (Hwf _ _ Eo) Hk Hm).
      cbn [fst]. apply negative_k_clear_insert; [done|].
      cbn [merged attr_k attr_bitarray set_bitarray set_size]. intros Hneg.
      apply zip_orb_any; [now apply (Hclear _ _ Es)|].
      apply (Hclear _ _ Eo). lia.
    + destruct (merge_raise _ _ _ _ _ Es Eo (or_intror Hm)) as [msg [_ ->]]. done.
    + destruct (merge_raise _ _ _ _ _ Es Eo (or_introl Hk)) as [msg [_ ->]]. done.
Qed.

Lemma negative_k_clear_run cs : negative_k_clear (run cs).1.
Proof.
  unfold run. induction cs as [|c cs IH] using rev_ind.
  - intros r f E. simpl in E. now rewrite lookup_empty in E.
  - rewrite foldl_snoc.
    pose proof (inv_run cs) as [Hwf _]. unfold run in Hwf.
    destruct (foldl step (∅, ∅) cs) as [h g].
    now apply negative_k_clear_step.
Qed.

Lemma contains_dangling self item (h : heap) :
  h !! self = None -> __contains__ self item h = (Raise Dangling, h).
Proof.
  intros E. unfold __contains__.
  now rewrite (bind_Raise _ _ _ _ _ (getattr_None _ _ _ E)).
Qed.

(** * The properties of the specification *)

(** C1 (no false negatives).  In the state reached by any client program
    (constructions, single insertions, bulk populations and merges, in
    any order, failed calls included), every item recorded for an object
    -- given at its construction, inserted by [+], inserted by a call, or
    recorded for an operand of the merge that built it -- is reported
    present: [item in object] returns [True], and does not touch the
    store. *)
Theorem no_false_negatives (cs : list command) (r : loc) (x : Item) :
  x ∈ members (run cs).2 r ->
  __contains__ r x (run cs).1 = (Ok true, (run cs).1).
Proof.
  intros Hx. destruct (inv_run cs) as [Hwf Hin].
  destruct (Hin r x Hx) as [f [E Hset]].
  rewrite (contains_run r x f _ E (Hwf _ _ E)). now rewrite Hset.
Qed.

(** C2 (parameter derivation, amended).  Construction with a positive [n]
    and an [epsilon] in (0,1) returns a new object whose attributes are
    [b = - ln epsilon / (ln 2)^2], [k = ceil (b * ln 2)] (or the given
    non-zero [k]) and [m = ceil (n * b)]; for [n = 1000],
    [epsilon = 0.01] and no given [k] this is [9.585 < b < 9.5851],
    [k = 7] and [m = 9586]. *)
Theorem parameter_derivation (n epsilon : R) (k : Z)
    (samples : option (list Item)) (h : heap) :
  (0 < n)%R -> (0 < epsilon < 1)%R ->
  ∃ f, __init__ n samples epsilon k h
       = (Ok (fresh (dom h)), <[fresh (dom h) := f]> h)
     ∧ attr_b f = (- ln epsilon / (ln 2) ^ 2)%R
     ∧ attr_k f = (if decide (k = 0) then Zceil (attr_b f * ln 2) else k)
     ∧ attr_m f = Zceil (n * attr_b f)
     ∧ attr_n f = n
     ∧ (n = 1000%R -> epsilon = (1 / 100)%R -> k = 0 ->
        (9585 / 1000 < attr_b f < 95851 / 10000)%R
        ∧ attr_k f = 7 ∧ attr_m f = 9586).
Proof.
  intros Hn He. exists (init_object n (samples_or_empty samples) epsilon k).
  split; [now apply init_run|].
  repeat split; try reflexivity; subst; cbn [init_object attr_b attr_k attr_m].
  - pose proof init_b_example. lra.
  - apply init_b_example.
  - apply init_k_example.
  - apply init_m_example.
Qed.

(** C3 (population guard, amended).  On a well-formed object, [self(samples)]
    raises the [InputException] of the guard exactly when a bit of the
    bit array is set, and then leaves the store as it was; otherwise it
    returns, adds the number of samples to [__size], keeps every other
    attribute and sets exactly the positions of the samples.  So after
    construction without samples and one call with a non-empty list, when
    the given [k] is not negative, [len] is the number of samples and
    every further call raises, even with an empty list.  (After a call
    that set no bit, a further call is accepted.) *)
Theorem population_guard :
  (∀ (self : loc) (f : bloomfilter) (h : heap) (samples : option (list Item)),
     h !! self = Some f -> wf f ->
     ((∃ j, attr_bitarray f !! j = Some true)
      ↔ ∃ h', __call__ self samples h = (Raise (InputException msg_call), h'))
     ∧ ((∃ j, attr_bitarray f !! j = Some true) ->
        __call__ self samples h = (Raise (InputException msg_call), h))
     ∧ ((∀ j, attr_bitarray f !! j ≠ Some true) ->
        ∃ f', __call__ self samples h = (Ok tt, <[self := f']> h)
          ∧ attr_size f' = attr_size f + Z.of_nat (length (samples_or_empty samples))
          ∧ attr_k f' = attr_k f ∧ attr_m f' = attr_m f
          ∧ attr_b f' = attr_b f ∧ attr_n f' = attr_n f
          ∧ length (attr_bitarray f') = length (attr_bitarray f)
          ∧ ∀ j, attr_bitarray f' !! j = Some true
                 ↔ (j < length (attr_bitarray f))%nat
                   ∧ ∃ x seed, x ∈ samples_or_empty samples
                               ∧ 0 <= seed < attr_k f
                               ∧ j = position (attr_m f) x seed))
  ∧
  (∀ (n epsilon : R) (k : Z) (samples : list Item)
     (again : option (list Item)) (h : heap),
     (0 < n)%R -> (0 < epsilon < 1)%R -> 0 <= k -> samples ≠ [] ->
     ∃ h1 h2,
       __init__ n None epsilon k h = (Ok (fresh (dom h)), h1)
       ∧ __call__ (fresh (dom h)) (Some samples) h1 = (Ok tt, h2)
       ∧ __len__ (fresh (dom h)) h2 = (Ok (Z.of_nat (length samples)), h2)
       ∧ __call__ (fresh (dom h)) again h2
         = (Raise (InputException msg_call), h2)).
Proof.
  split.
  - intros self f h samples E Hwf.
    destruct (bitarray_any (attr_bitarray f)) eqn:Hany.
    + pose proof Hany as Hex. apply bitarray_any_true in Hex.
      rewrite (call_raise _ samples _ _ E Hany).
      split; [| split].
      * split; [intros _; now exists h | intros _; exact Hex].
      * reflexivity.
      * intros Hno. destruct Hex as [j Hj]. now destruct (Hno j).
    + pose proof Hany as Hno. rewrite bitarray_any_false in Hno.
      rewrite (call_run _ samples _ _ E Hwf Hany).
      split; [| split].
      * split; [intros [j Hj]; now destruct (Hno j) | intros [h' Heq]; discriminate].
      * intros [j Hj]. now destruct (Hno j).
      * intros _. eexists. split; [reflexivity|].
        cbn [populated attr_size attr_k attr_m attr_b attr_n attr_bitarray
             set_bitarray set_size].
        repeat split; try reflexivity; try apply add_items_length.
        -- rewrite add_items_lookup in H.
           destruct H as [H | [Hlt _]]; [now destruct (Hno j) | exact Hlt].
        -- rewrite add_items_lookup in H.
           destruct H as [H | [_ [x [seed [Hx [Hs ->]]]]]]; [now destruct (Hno j)|].
           exists x, seed. apply elem_of_seqZ in Hs. repeat split; [done | lia..].
        -- intros [Hlt [x [seed [Hx [Hs ->]]]]].
           apply add_items_lookup. right. split; [done|].
           exists x, seed. repeat split; [done|]. apply elem_of_seqZ. lia.
  - intros n epsilon k samples again h Hn He Hk Hne.
    set (r := fresh (dom h)).
    set (f0 := init_object n [] epsilon k).
    assert (Hwf0 : wf f0) by (now apply init_object_wf).
    assert (Hany0 : bitarray_any (attr_bitarray f0) = false)
      by apply bitarray_any_replicate.
    exists (<[r := f0]> h), (<[r := populated f0 samples]> h).
    split; [now apply init_run|].
    split.
    { rewrite (call_run r (Some samples) f0 _ (lookup_insert_eq _ _ _) Hwf0 Hany0).
      now rewrite insert_insert_eq. }
    split.
    { unfold __len__.
      rewrite (getattr_Some _ _ _ _ (lookup_insert_eq _ _ _)). reflexivity. }
    apply (call_raise r again (populated f0 samples)); [apply lookup_insert_eq|].
    cbn [populated attr_bitarray attr_k attr_m set_bitarray set_size].
    destruct Hwf0 as [Hm Hl].
    apply add_items_any; try assumption.
    now apply init_k_pos.
Qed.

(** C4 (merge).  For two well-formed objects with equal [k] and equal
    [m], [self + other] returns a new object; its bit array is the
    position-wise or of the two bit arrays, its [__size] the sum of the
    two sizes, and every item reported present by one of the operands is
    reported present by the result. *)
Theorem merge_correct (self other : loc) (s o : bloomfilter) (h : heap) :
  h !! self = Some s -> h !! other = Some o -> wf s -> wf o ->
  attr_k o = attr_k s -> attr_m o = attr_m s ->
  ∃ r f h',
    __add__ self (Filter other) h = (Ok r, h')
    ∧ h !! r = None ∧ h' = <[r := f]> h
    ∧ attr_bitarray f = zip_with orb (attr_bitarray s) (attr_bitarray o)
    ∧ length (attr_bitarray f) = Z.to_nat (attr_m s)
    ∧ (∀ j x y, attr_bitarray s !! j = Some x -> attr_bitarray o !! j = Some y ->
                attr_bitarray f !! j = Some (x || y))
    ∧ attr_size f = attr_size s + attr_size o
    ∧ __len__ r h' = (Ok (attr_size s + attr_size o), h')
    ∧ attr_k f = attr_k s ∧ attr_m f = attr_m s
    ∧ ∀ x, __contains__ self x h = (Ok true, h)
           ∨ __contains__ other x h = (Ok true, h) ->
           __contains__ r x h' = (Ok true, h').
Proof.
  intros Es Eo Hs Ho Hk Hm.
  exists (fresh (dom h)), (merged s o), (<[fresh (dom h) := merged s o]> h).
  assert (Hlen : length (attr_bitarray s) = length (attr_bitarray o)).
  { destruct Hs as [_ Hls], Ho as [_ Hlo]. congruence. }
  assert (Hwf : wf (merged s o)).
  { destruct Hs as [Hms Hls]. split; simpl; [done|].
    rewrite length_zip_with. lia. }
  split; [now apply merge_run|].
  split; [apply fresh_None|].
  split; [reflexivity|].
  split; [reflexivity|].
  split; [apply Hwf|].
  split.
  { intros j x y Hx Hy. simpl. now rewrite lookup_zip_with, Hx, Hy. }
  split; [reflexivity|].
  split.
  { unfold __len__. now rewrite (getattr_Some _ _ _ _ (lookup_insert_eq _ _ _)). }
  split; [reflexivity|].
  split; [reflexivity|].
  intros x Hx.
  rewrite (contains_run _ x _ _ (lookup_insert_eq _ _ _) Hwf).
  f_equal. f_equal. cbn [merged attr_m attr_k attr_bitarray set_bitarray set_size].
  destruct Hx as [Hx | Hx].
  - rewrite (contains_run _ x _ _ Es Hs) in Hx. injection Hx as Hx.
    eapply all_set_le; [now apply zip_orb_le_l | exact Hx].
  - rewrite (contains_run _ x _ _ Eo Ho) in Hx. injection Hx as Hx.
    eapply all_set_le; [now apply zip_orb_le_r|]. now rewrite <- Hk, <- Hm.
Qed.

(** C5 (merge compatibility).  For two well-formed objects, [self + other]
    raises exactly when they differ in [k] or in [m]; what it raises is
    the [InputException] with one of the two messages of the check, and
    the store is then as before.  Two filters constructed one after the
    other with the same [n], [epsilon] and [k] merge without an
    exception, whatever their samples. *)
Theorem merge_compatibility :
  (∀ (self other : loc) (s o : bloomfilter) (h : heap),
     h !! self = Some s -> h !! other = Some o -> wf s -> wf o ->
     ((attr_k o ≠ attr_k s ∨ attr_m o ≠ attr_m s)
      ↔ ∃ e h', __add__ self (Filter other) h = (Raise e, h'))
     ∧ (∀ e h', __add__ self (Filter other) h = (Raise e, h') ->
          h' = h ∧ (e = InputException msg_k ∨ e = InputException msg_m)))
  ∧
  (∀ (n epsilon : R) (k : Z) (samples1 samples2 : option (list Item)) (h : heap),
     (0 < n)%R -> (0 < epsilon < 1)%R ->
     ∃ r1 h1 r2 h2 r h3,
       __init__ n samples1 epsilon k h = (Ok r1, h1)
       ∧ __init__ n samples2 epsilon k h1 = (Ok r2, h2)
       ∧ __add__ r1 (Filter r2) h2 = (Ok r, h3)).
Proof.
  split.
  - intros self other s o h Es Eo Hs Ho.
    destruct (decide (attr_k o = attr_k s)) as [Hk | Hk];
      [destruct (decide (attr_m o = attr_m s)) as [Hm | Hm] |].
    + rewrite (merge_run _ _ _ _ _ Es Eo Hs Ho Hk Hm). split.
      * split; [intros [H | H]; contradiction | intros [e [h' H]]; discriminate].
      * intros e h' H. discriminate.
    + destruct (merge_raise _ _ _ _ _ Es Eo (or_intror Hm)) as [msg [Hmsg ->]].
      split.
      * split; [intros _; now exists (InputException msg), h | intros _; now right].
      * intros e h' H. injection H as <- <-. split; [reflexivity|].
        apply elem_of_cons in Hmsg as [-> | Hmsg]; [now left|].
        apply list_elem_of_singleton in Hmsg as ->. now right.
    + destruct (merge_raise _ _ _ _ _ Es Eo (or_introl Hk)) as [msg [Hmsg ->]].
      split.
      * split; [intros _; now exists (InputException msg), h | intros _; now left].
      * intros e h' H. injection H as <- <-. split; [reflexivity|].
        apply elem_of_cons in Hmsg as [-> | Hmsg]; [now left|].
        apply list_elem_of_singleton in Hmsg as ->. now right.
  - intros n epsilon k samples1 samples2 h Hn He.
    set (r1 := fresh (dom h)).
    set (f1 := init_object n (samples_or_empty samples1) epsilon k).
    set (h1 := <[r1 := f1]> h).
    set (r2 := fresh (dom h1)).
    set (f2 := init_object n (samples_or_empty samples2) epsilon k).
    set (h2 := <[r2 := f2]> h1).
    assert (E1 : h1 !! r1 = Some f1) by apply lookup_insert_eq.
    assert (Hne : r2 ≠ r1) by (eapply fresh_ne; exact E1).
    exists r1, h1, r2, h2, (fresh (dom h2)), (<[fresh (dom h2) := merged f1 f2]> h2).
    split; [now apply init_run|].
    split; [now apply init_run|].
    apply merge_run.
    + unfold h2. now rewrite lookup_insert_ne.
    + apply lookup_insert_eq.
    + now apply init_object_wf.
    + now apply init_object_wf.
    + reflexivity.
    + reflexivity.
Qed.

(** C6 (insertion does not mutate).  For a well-formed object [self] and
    an item, [self + item] returns a new object and changes no object of
    the store: [self] has the attributes, the [len] and the bits it had.
    The new object has [__size] one more, the same other attributes, the
    positions of the item set and every other bit as in [self]. *)
Theorem insert_non_mutating (self : loc) (f : bloomfilter) (x : Item) (h : heap) :
  h !! self = Some f -> wf f ->
  ∃ r d h',
    __add__ self (Other x) h = (Ok r, h')
    ∧ h !! r = None
    ∧ (∀ r', r' ≠ r -> h' !! r' = h !! r')
    ∧ h' !! self = Some f
    ∧ __len__ self h' = (Ok (attr_size f), h')
    ∧ show self h' = (Ok (attr_bitarray f), h')
    ∧ h' !! r = Some d
    ∧ attr_size d = attr_size f + 1
    ∧ attr_k d = attr_k f ∧ attr_m d = attr_m f
    ∧ attr_b d = attr_b f ∧ attr_n d = attr_n f
    ∧ length (attr_bitarray d) = length (attr_bitarray f)
    ∧ (∀ seed, 0 <= seed < attr_k f ->
               attr_bitarray d !! position (attr_m f) x seed = Some true)
    ∧ (∀ j, (∀ seed, 0 <= seed < attr_k f -> j ≠ position (attr_m f) x seed) ->
            attr_bitarray d !! j = attr_bitarray f !! j).
Proof.
  intros E Hwf. pose proof Hwf as [Hm Hl].
  set (r := fresh (dom h)).
  assert (Hne : r ≠ self) by (eapply fresh_ne; exact E).
  assert (E' : <[r := inserted f x]> h !! self = Some f)
    by (now rewrite lookup_insert_ne).
  exists r, (inserted f x), (<[r := inserted f x]> h).
  split; [now apply insert_run|].
  split; [apply fresh_None|].
  split; [intros r' Hr'; now rewrite lookup_insert_ne|].
  split; [exact E'|].
  split; [unfold __len__; now rewrite (getattr_Some _ _ _ _ E')|].
  split; [unfold show; now rewrite (getattr_Some _ _ _ _ E')|].
  split; [apply lookup_insert_eq|].
  cbn [inserted attr_size attr_k attr_m attr_b attr_n attr_bitarray
       set_bitarray set_size].
  repeat split.
  - apply set_positions_length.
  - intros seed Hseed.
    pose proof (all_set_set_positions (attr_m f) x (range (attr_k f))
                  (attr_bitarray f) Hm Hl) as Hall.
    rewrite all_set_true in Hall. apply Hall, elem_of_seqZ. lia.
  - intros j Hj. apply set_positions_other.
    intros seed Hin. apply Hj. apply elem_of_seqZ in Hin. lia.
Qed.

(** C7 (bits are never cleared).  Construction, single insertion, bulk
    population and merge, whether they return or raise, leave every bit
    that was set in an object of the store set in that object, and every
    bit set in an operand is set in the object returned. *)
Theorem bits_never_cleared (h : heap) :
  heap_wf h ->
  (∀ n samples epsilon k, ∃ res h',
     __init__ n samples epsilon k h = (res, h')
     ∧ ∀ r f, h !! r = Some f -> h' !! r = Some f)
  ∧ (∀ self f x, h !! self = Some f ->
     ∃ r d h',
       __add__ self (Other x) h = (Ok r, h')
       ∧ h' !! r = Some d
       ∧ bits_le (attr_bitarray f) (attr_bitarray d)
       ∧ ∀ r' f', h !! r' = Some f' -> h' !! r' = Some f')
  ∧ (∀ self f samples, h !! self = Some f ->
     ∃ res f' h',
       __call__ self samples h = (res, h')
       ∧ h' !! self = Some f'
       ∧ bits_le (attr_bitarray f) (attr_bitarray f')
       ∧ ∀ r' g, r' ≠ self -> h !! r' = Some g -> h' !! r' = Some g)
  ∧ (∀ self other s o, h !! self = Some s -> h !! other = Some o ->
     ∃ res h',
       __add__ self (Filter other) h = (res, h')
       ∧ (∀ r' g, h !! r' = Some g -> h' !! r' = Some g)
       ∧ ∀ r, res = Ok r ->
              ∃ d, h' !! r = Some d
                   ∧ bits_le (attr_bitarray s) (attr_bitarray d)
                   ∧ bits_le (attr_bitarray o) (attr_bitarray d)).
Proof.
  intros Hwf.
  assert (Hkeep : ∀ (g : bloomfilter) r' f',
            h !! r' = Some f' -> <[fresh (dom h) := g]> h !! r' = Some f').
  { intros g r' f' E. rewrite lookup_insert_ne; [done|].
    eapply fresh_ne; exact E. }
  split; [| split; [| split]].
  - intros n samples epsilon k.
    case_parameters n epsilon.
    + do 2 eexists. split; [apply init_run; (try split; assumption)|].
      apply Hkeep.
    + destruct (init_raise n samples epsilon k h) as [msg ->]; [auto|].
      do 2 eexists. split; [reflexivity | auto].
    + destruct (init_raise n samples epsilon k h) as [msg ->]; [auto|].
      do 2 eexists. split; [reflexivity | auto].
    + destruct (init_raise n samples epsilon k h) as [msg ->]; [auto|].
      do 2 eexists. split; [reflexivity | auto].
  - intros self f x E.
    do 3 eexists. split; [apply (insert_run _ _ _ _ E (Hwf _ _ E))|].
    split; [apply lookup_insert_eq|].
    split; [apply set_positions_le | apply Hkeep].
  - intros self f samples E.
    destruct (bitarray_any (attr_bitarray f)) eqn:Hany.
    + rewrite (call_raise _ samples _ _ E Hany).
      do 3 eexists. split; [reflexivity|].
      split; [exact E|]. split; [apply bits_le_refl | auto].
    + rewrite (call_run _ samples _ _ E (Hwf _ _ E) Hany).
      do 3 eexists. split; [reflexivity|].
      split; [apply lookup_insert_eq|].
      split; [apply add_items_le|].
      intros r' g Hne Hg. now rewrite lookup_insert_ne.
  - intros self other s o Es Eo.
    pose proof (Hwf _ _ Es) as Hs. pose proof (Hwf _ _ Eo) as Ho.
    destruct (decide (attr_k o = attr_k s)) as [Hk | Hk];
      [destruct (decide (attr_m o = attr_m s)) as [Hm | Hm] |].
    + rewrite (merge_run _ _ _ _ _ Es Eo Hs Ho Hk Hm).
      assert (Hlen : length (attr_bitarray s) = length (attr_bitarray o)).
      { destruct Hs as [_ Hls], Ho as [_ Hlo]. congruence. }
      do 2 eexists. split; [reflexivity|].
      split; [apply Hkeep|].
      intros r Hr. injection Hr as <-. eexists.
      split; [apply lookup_insert_eq|].
      split; [now apply zip_orb_le_l | now apply zip_orb_le_r].
    + destruct (merge_raise _ _ _ _ _ Es Eo (or_intror Hm)) as [msg [_ ->]].
      do 2 eexists. split; [reflexivity|]. split; [auto | discriminate].
    + destruct (merge_raise _ _ _ _ _ Es Eo (or_introl Hk)) as [msg [_ ->]].
      do 2 eexists. split; [reflexivity|]. split; [auto | discriminate].
Qed.

(** C8 (estimated error rate).  [self.actual_epsilon] returns, without
    touching the store, 0 when [__size] is 0 and otherwise 0.5 to the
    power [(m / __size) * ln 2]: the value the specification gives. *)
Theorem actual_error_rate (self : loc) (f : bloomfilter) (h : heap) :
  h !! self = Some f ->
  actual_epsilon self h
  = (Ok (ActualErrorRate_spec (attr_m f) (attr_size f)), h)
  ∧ (attr_size f = 0 -> actual_epsilon self h = (Ok 0%R, h))
  ∧ (attr_size f ≠ 0 ->
     actual_epsilon self h
     = (Ok (Rpower (1 / 2) (IZR (attr_m f) / IZR (attr_size f) * ln 2)), h)).
Proof.
  intros E.
  assert (Hrun : actual_epsilon self h
                 = (Ok (ActualErrorRate_spec (attr_m f) (attr_size f)), h)).
  { unfold actual_epsilon, ActualErrorRate_spec.
    read_attr E.
    destruct (decide (attr_size f = 0)) as [Hz | Hz].
    - rewrite decide_False by (intros H; now apply H). reflexivity.
    - rewrite decide_True by exact Hz.
      read_attr E.
      read_attr E. reflexivity. }
  rewrite Hrun. unfold ActualErrorRate_spec.
  split; [reflexivity|]. split; intros Hz.
  - now rewrite decide_True.
  - now rewrite decide_False.
Qed.

(** C9 (what construction validates).  Construction raises exactly when
    [n <= 0] or [epsilon] is not in (0,1); a non-zero [k] is taken as it
    is, negative or not.  In every state a client program reaches, an
    object with a negative [k] has no bit set and reports every item
    present. *)
Theorem construction_validation :
  (∀ n (samples : option (list Item)) epsilon k (h : heap),
     (∃ e h', __init__ n samples epsilon k h = (Raise e, h'))
     ↔ (n <= 0)%R ∨ (epsilon <= 0)%R ∨ (1 <= epsilon)%R)
  ∧ (∀ n (samples : option (list Item)) epsilon k (h : heap),
       (0 < n)%R -> (0 < epsilon < 1)%R -> k ≠ 0 ->
       ∃ f, __init__ n samples epsilon k h
            = (Ok (fresh (dom h)), <[fresh (dom h) := f]> h)
          ∧ attr_k f = k)
  ∧ (∀ (cs : list command) (r : loc) (f : bloomfilter),
       (run cs).1 !! r = Some f -> attr_k f < 0 ->
       (∀ j, attr_bitarray f !! j ≠ Some true)
       ∧ ∀ x, __contains__ r x (run cs).1 = (Ok true, (run cs).1)).
Proof.
  split; [| split].
  - intros n samples epsilon k h. split.
    + intros [e [h' Hr]].
      destruct (Rlt_le_dec 0 n) as [Hn | Hn]; [| now left].
      destruct (Rlt_le_dec 0 epsilon) as [He0 | He0]; [| now right; left].
      destruct (Rlt_le_dec epsilon 1) as [He1 | He1]; [| now right; right].
      rewrite init_run in Hr by (try split; assumption). discriminate.
    + intros Hbad. destruct (init_raise n samples epsilon k h Hbad) as [msg ->].
      now exists (InputException msg), h.
  - intros n samples epsilon k h Hn He Hk.
    eexists. split; [now apply init_run|].
    cbn [init_object attr_k]. unfold init_k. now rewrite decide_False.
  - intros cs r f E Hk.
    pose proof (negative_k_clear_run cs r f E Hk) as Hclear.
    destruct (inv_run cs) as [Hwf _].
    split; [now apply bitarray_any_false|].
    intros x. rewrite (contains_run r x f _ E (Hwf _ _ E)).
    now rewrite range_nonpos by lia.
Qed.

(** C10 (indices are in range).  For a well-formed object the index
    [mmh3.hash(str(item), seed) % m] is in [0, m), the length of the bit
    array.  Every object a client program builds is well formed, and on
    a store of well-formed objects neither construction nor insertion
    nor population nor the membership test raises [IndexError] or
    [ZeroDivisionError]. *)
Theorem index_in_bounds :
  (∀ (f : bloomfilter) (x : Item) (seed : Z), wf f ->
     0 <= mmh3_hash x seed mod attr_m f < attr_m f
     ∧ attr_m f = Z.of_nat (length (attr_bitarray f))
     ∧ bitarray_index (length (attr_bitarray f)) (mmh3_hash x seed mod attr_m f)
       = Some (position (attr_m f) x seed)
     ∧ is_Some (attr_bitarray f !! position (attr_m f) x seed))
  ∧ (∀ cs : list command, heap_wf (run cs).1)
  ∧ (∀ (h : heap) (e : exn), heap_wf h -> e = IndexError ∨ e = ZeroDivisionError ->
       (∀ n samples epsilon k h', __init__ n samples epsilon k h ≠ (Raise e, h'))
       ∧ (∀ self x h', __add__ self (Other x) h ≠ (Raise e, h'))
       ∧ (∀ self samples h', __call__ self samples h ≠ (Raise e, h'))
       ∧ (∀ self x h', __contains__ self x h ≠ (Raise e, h'))).
Proof.
  split; [| split].
  - intros f x seed [Hm Hl].
    pose proof (position_lt (attr_m f) x seed Hm) as Hpos.
    split; [exact Hpos|]. split; [lia|]. split.
    + apply bitarray_index_in. lia.
    + apply lookup_lt_is_Some_2. unfold position. lia.
  - intros cs. apply (inv_run cs).
  - intros h e Hwf He.
    assert (Hd : e ≠ Dangling) by (destruct He; subst; discriminate).
    assert (Hi : ∀ msg, e ≠ InputException msg)
      by (intros msg; destruct He; subst; discriminate).
    split; [| split; [| split]].
    + intros n samples epsilon k h' Hr.
      case_parameters n epsilon.
      * rewrite init_run in Hr by (try split; assumption). discriminate.
      * destruct (init_raise n samples epsilon k h) as [msg Hm]; [auto|].
        rewrite Hm in Hr. injection Hr as <- _. now apply (Hi msg).
      * destruct (init_raise n samples epsilon k h) as [msg Hm]; [auto|].
        rewrite Hm in Hr. injection Hr as <- _. now apply (Hi msg).
      * destruct (init_raise n samples epsilon k h) as [msg Hm]; [auto|].
        rewrite Hm in Hr. injection Hr as <- _. now apply (Hi msg).
    + intros self x h' Hr. destruct (h !! self) as [f|] eqn:E.
      * rewrite (insert_run _ _ _ _ E (Hwf _ _ E)) in Hr. discriminate.
      * rewrite add_dangling in Hr by done. injection Hr as <- _. now apply Hd.
    + intros self samples h' Hr. destruct (h !! self) as [f|] eqn:E.
      * destruct (bitarray_any (attr_bitarray f)) eqn:Hany.
        -- rewrite (call_raise _ _ _ _ E Hany) in Hr.
           injection Hr as <- _. now apply (Hi msg_call).
        -- rewrite (call_run _ _ _ _ E (Hwf _ _ E) Hany) in Hr. discriminate.
      * rewrite call_dangling in Hr by done. injection Hr as <- _. now apply Hd.
    + intros self x h' Hr. destruct (h !! self) as [f|] eqn:E.
      * rewrite (contains_run _ x _ _ E (Hwf _ _ E)) in Hr. discriminate.
      * rewrite contains_dangling in Hr by done. injection Hr as <- _. now apply Hd.
Qed.

(** * Further properties of the code *)

(** ** Membership test *)

Lemma all_set_false m item seeds bits :
  0 < m -> length bits = Z.to_nat m ->
  all_set m item seeds bits = false ->
  ∃ seed, seed ∈ seeds ∧ bits !! position m item seed = Some false.
Proof.
  intros Hm Hl. induction seeds as [|s seeds IH]; [discriminate|].
  cbn [all_set forallb]. fold (all_set m item seeds bits).
  destruct (lookup_lt_is_Some_2 bits (position m item s)) as [v Hv].
  { pose proof (position_lt m item s Hm). unfold position. lia. }
  destruct v.
  - rewrite bool_decide_eq_true_2 by exact Hv. simpl. intros H.
    destruct (IH H) as [seed [Hin Hseed]].
    exists seed. split; [now apply list_elem_of_further | exact Hseed].
  - intros _. exists s. split; [apply list_elem_of_here | exact Hv].
Qed.

(** X1.  On a well-formed object [item in self] returns without touching
    the store; the answer is [True] exactly when the bit at every
    position [mmh3.hash(str(item), seed) % m], [0 <= seed < k], is 1,
    and [False] exactly when the bit at one of them is 0. *)
Theorem contains_exact (self : loc) (f : bloomfilter) (x : Item) (h : heap) :
  h !! self = Some f -> wf f ->
  ∃ b, __contains__ self x h = (Ok b, h)
     ∧ (b = true ↔ ∀ seed, 0 <= seed < attr_k f ->
          attr_bitarray f !! position (attr_m f) x seed = Some true)
     ∧ (b = false ↔ ∃ seed, 0 <= seed < attr_k f
          ∧ attr_bitarray f !! position (attr_m f) x seed = Some false).
Proof.
  intros E Hwf. pose proof Hwf as [Hm Hl].
  exists (all_set (attr_m f) x (range (attr_k f)) (attr_bitarray f)).
  split; [now apply contains_run|]. split.
  - rewrite all_set_true. split.
    + intros H seed Hseed. apply H, elem_of_seqZ. lia.
    + intros H seed Hin. apply H. apply elem_of_seqZ in Hin. lia.
  - split.
    + intros Hf. destruct (all_set_false _ _ _ _ Hm Hl Hf) as [seed [Hin Hs]].
      exists seed. apply elem_of_seqZ in Hin. split; [lia | exact Hs].
    + intros [seed [Hseed Hs]].
      destruct (all_set _ _ _ _) eqn:Hall; [| reflexivity].
      rewrite all_set_true in Hall.
      rewrite Hall in Hs by (apply elem_of_seqZ; lia). discriminate.
Qed.

(** X2.  A filter constructed without samples (with [None] or with the
    empty list) and with a [k] argument that is not negative is empty in
    every respect: its length is 0, its bit array is [m] zeros, the
    estimated error rate is 0 and no item at all is reported present. *)
Theorem empty_filter (n epsilon : R) (k : Z) (samples : option (list Item))
    (h : heap) :
  (0 < n)%R -> (0 < epsilon < 1)%R -> 0 <= k -> samples_or_empty samples = [] ->
  ∃ h1,
    __init__ n samples epsilon k h = (Ok (fresh (dom h)), h1)
    ∧ __len__ (fresh (dom h)) h1 = (Ok 0, h1)
    ∧ show (fresh (dom h)) h1
      = (Ok (replicate (Z.to_nat (init_m n epsilon)) false), h1)
    ∧ actual_epsilon (fresh (dom h)) h1 = (Ok 0%R, h1)
    ∧ ∀ x, __contains__ (fresh (dom h)) x h1 = (Ok false, h1).
Proof.
  intros Hn He Hk Hs.
  set (r := fresh (dom h)).
  set (f0 := init_object n [] epsilon k).
  assert (E : <[r := f0]> h !! r = Some f0) by apply lookup_insert_eq.
  assert (Hwf : wf f0) by (now apply init_object_wf).
  exists (<[r := f0]> h).
  split; [rewrite init_run by assumption; now rewrite Hs|].
  split; [unfold __len__; now rewrite (getattr_Some _ _ _ _ E)|].
  split; [unfold show; now rewrite (getattr_Some _ _ _ _ E)|].
  split.
  { unfold actual_epsilon. read_attr E. reflexivity. }
  intros x. rewrite (contains_run r x f0 _ E Hwf). f_equal. f_equal.
  destruct (all_set _ _ _ _) eqn:Hall; [| reflexivity].
  rewrite all_set_true in Hall.
  assert (H0 : 0 ∈ range (attr_k f0)).
  { apply elem_of_seqZ. pose proof (init_k_pos epsilon k He Hk).
    cbn [f0 init_object attr_k]. lia. }
  apply Hall in H0. cbn [f0 init_object attr_bitarray add_items foldl] in H0.
  apply lookup_replicate in H0 as [H0 _]. discriminate.
Qed.

(** X3.  After construction with samples, an item is reported present
    exactly when each of its positions is a position of some sample:
    the bits that are set are those of the samples and no others. *)
Theorem constructed_contains (n epsilon : R) (k : Z)
    (samples : option (list Item)) (h : heap) (y : Item) :
  (0 < n)%R -> (0 < epsilon < 1)%R ->
  ∃ b h1,
    __init__ n samples epsilon k h = (Ok (fresh (dom h)), h1)
    ∧ __contains__ (fresh (dom h)) y h1 = (Ok b, h1)
    ∧ (b = true ↔
       ∀ seed, 0 <= seed < init_k epsilon k ->
         ∃ x seed', x ∈ samples_or_empty samples
                    ∧ 0 <= seed' < init_k epsilon k
                    ∧ position (init_m n epsilon) y seed
                      = position (init_m n epsilon) x seed').
Proof.
  intros Hn He.
  set (r := fresh (dom h)).
  set (f0 := init_object n (samples_or_empty samples) epsilon k).
  assert (E : <[r := f0]> h !! r = Some f0) by apply lookup_insert_eq.
  assert (Hwf : wf f0) by (now apply init_object_wf).
  pose proof (init_m_pos n epsilon Hn He) as Hm.
  exists (all_set (attr_m f0) y (range (attr_k f0)) (attr_bitarray f0)),
         (<[r := f0]> h).
  split; [now apply init_run|].
  split; [apply (contains_run r y f0 _ E Hwf)|].
  unfold f0. cbn [init_object attr_k attr_m attr_bitarray].
  rewrite all_set_true. split.
  - intros H seed Hseed.
    assert (Hin : seed ∈ range (init_k epsilon k)) by (apply elem_of_seqZ; lia).
    apply H, add_items_lookup in Hin as [Hin | [_ [x [seed' [Hx [Hs' Heq]]]]]].
    + apply lookup_replicate in Hin as [Hin _]. discriminate.
    + exists x, seed'. apply elem_of_seqZ in Hs'. split; [done|]. split; [lia | done].
  - intros H seed Hin. apply elem_of_seqZ in Hin.
    destruct (H seed) as [x [seed' [Hx [Hs' Heq]]]]; [lia|].
    apply add_items_lookup. right. split.
    + rewrite length_replicate.
      pose proof (position_lt (init_m n epsilon) y seed Hm). unfold position. lia.
    + exists x, seed'. split; [done|]. split; [apply elem_of_seqZ; lia | done].
Qed.

(** ** Insertion *)

(** Two bit arrays of the same length with the same bits set are equal. *)
Lemma bits_eq (l1 l2 : list bool) :
  length l1 = length l2 ->
  (∀ j, l1 !! j = Some true ↔ l2 !! j = Some true) -> l1 = l2.
Proof.
  intros Hlen H. apply list_eq. intros j.
  destruct (l1 !! j) as [b1|] eqn:E1, (l2 !! j) as [b2|] eqn:E2.
  - destruct b1, b2; try reflexivity.
    + apply H in E1. congruence.
    + apply H in E2. congruence.
  - apply lookup_lt_Some in E1. apply lookup_ge_None in E2. lia.
  - apply lookup_ge_None in E1. apply lookup_lt_Some in E2. lia.
  - reflexivity.
Qed.

Lemma inserted_wf f x : wf f -> wf (inserted f x).
Proof.
  intros Hwf. apply wf_set_bitarray; [now apply wf_set_size|].
  apply set_positions_length.
Qed.

Lemma set_positions_twice m x seeds bits :
  set_positions m x seeds (set_positions m x seeds bits)
  = set_positions m x seeds bits.
Proof.
  apply bits_eq; [now rewrite !set_positions_length|].
  intros j. rewrite !set_positions_lookup, set_positions_length. tauto.
Qed.

Lemma set_positions_comm m x y seeds seeds' bits :
  set_positions m y seeds' (set_positions m x seeds bits)
  = set_positions m x seeds (set_positions m y seeds' bits).
Proof.
  apply bits_eq; [now rewrite !set_positions_length|].
  intros j. rewrite !set_positions_lookup, !set_positions_length. tauto.
Qed.

(** Two insertions in a row, from the attributes [f] of [self]. *)
Lemma insert_insert_run self f x y (h : heap) :
  h !! self = Some f -> wf f ->
  ∃ r1 h1 r2,
    __add__ self (Other x) h = (Ok r1, h1)
    ∧ __add__ r1 (Other y) h1
      = (Ok r2, <[r2 := inserted (inserted f x) y]> h1)
    ∧ h1 !! r2 = None.
Proof.
  intros E Hwf.
  set (r1 := fresh (dom h)). set (h1 := <[r1 := inserted f x]> h).
  exists r1, h1, (fresh (dom h1)).
  split; [now apply insert_run|].
  split; [| apply fresh_None].
  apply insert_run; [apply lookup_insert_eq | now apply inserted_wf].
Qed.

(** X4.  [item + self] (the reflected operator) inserts the item: it
    returns a new object that reports the item present and every item
    the original reported present, and the original is as before. *)
Theorem radd_inserts (self : loc) (f : bloomfilter) (x : Item) (h : heap) :
  h !! self = Some f -> wf f ->
  ∃ r h',
    __radd__ self (Other x) h = (Ok r, h')
    ∧ h !! r = None
    ∧ h' !! self = Some f
    ∧ __contains__ r x h' = (Ok true, h')
    ∧ ∀ y, __contains__ self y h = (Ok true, h) ->
           __contains__ r y h' = (Ok true, h').
Proof.
  intros E Hwf. pose proof Hwf as [Hm Hl].
  set (r := fresh (dom h)).
  assert (Er : <[r := inserted f x]> h !! r = Some (inserted f x))
    by apply lookup_insert_eq.
  exists r, (<[r := inserted f x]> h).
  split; [unfold __radd__; now apply insert_run|].
  split; [apply fresh_None|].
  split; [rewrite lookup_insert_ne; [done | eapply fresh_ne; exact E]|].
  split.
  - rewrite (contains_run r x _ _ Er (inserted_wf f x Hwf)).
    cbn [inserted attr_m attr_k attr_bitarray set_bitarray set_size].
    now rewrite all_set_set_positions.
  - intros y Hy. rewrite (contains_run self y f h E Hwf) in Hy.
    injection Hy as Hy.
    rewrite (contains_run r y _ _ Er (inserted_wf f x Hwf)).
    cbn [inserted attr_m attr_k attr_bitarray set_bitarray set_size].
    now rewrite (all_set_le _ _ _ _ _ (set_positions_le _ _ _ _) Hy).
Qed.

(** X5.  Inserting the same item twice changes no bit the second time
    but counts twice: the second object has the bit array of the first
    and a length two more than the original. *)
Theorem insert_twice (self : loc) (f : bloomfilter) (x : Item) (h : heap) :
  h !! self = Some f -> wf f ->
  ∃ r1 d1 h1 r2 d2 h2,
    __add__ self (Other x) h = (Ok r1, h1) ∧ h1 !! r1 = Some d1
    ∧ __add__ r1 (Other x) h1 = (Ok r2, h2) ∧ h2 !! r2 = Some d2
    ∧ attr_bitarray d2 = attr_bitarray d1
    ∧ attr_size d1 = attr_size f + 1
    ∧ attr_size d2 = attr_size f + 2.
Proof.
  intros E Hwf.
  destruct (insert_insert_run self f x x h E Hwf) as [r1 [h1 [r2 [H1 [H2 _]]]]].
  exists r1, (inserted f x), h1, r2, (inserted (inserted f x) x),
    (<[r2 := inserted (inserted f x) x]> h1).
  split; [exact H1|].
  rewrite (insert_run _ _ _ _ E Hwf) in H1. injection H1 as <- <-.
  split; [apply lookup_insert_eq|].
  split; [exact H2|].
  split; [apply lookup_insert_eq|].
  cbn [inserted attr_m attr_k attr_bitarray attr_size set_bitarray set_size].
  split; [apply set_positions_twice|]. split; lia.
Qed.

(** X6.  The order of two insertions does not matter: [(self + x) + y]
    and [(self + y) + x] have the same bit array and the same length. *)
Theorem insert_order (self : loc) (f : bloomfilter) (x y : Item) (h : heap) :
  h !! self = Some f -> wf f ->
  ∃ r1 h1 r2 h2 d r1' h1' r2' h2' d',
    __add__ self (Other x) h = (Ok r1, h1)
    ∧ __add__ r1 (Other y) h1 = (Ok r2, h2) ∧ h2 !! r2 = Some d
    ∧ __add__ self (Other y) h = (Ok r1', h1')
    ∧ __add__ r1' (Other x) h1' = (Ok r2', h2') ∧ h2' !! r2' = Some d'
    ∧ attr_bitarray d = attr_bitarray d'
    ∧ attr_size d = attr_size d'.
Proof.
  intros E Hwf.
  destruct (insert_insert_run self f x y h E Hwf) as [r1 [h1 [r2 [H1 [H2 _]]]]].
  destruct (insert_insert_run self f y x h E Hwf) as [r1' [h1' [r2' [H1' [H2' _]]]]].
  exists r1, h1, r2, (<[r2 := inserted (inserted f x) y]> h1),
    (inserted (inserted f x) y).
  exists r1', h1', r2', (<[r2' := inserted (inserted f y) x]> h1'),
    (inserted (inserted f y) x).
  split; [exact H1|]. split; [exact H2|].
  split; [apply lookup_insert_eq|].
  split; [exact H1'|]. split; [exact H2'|].
  split; [apply lookup_insert_eq|].
  cbn [inserted attr_m attr_k attr_bitarray attr_size set_bitarray set_size].
  split; [apply set_positions_comm | reflexivity].
Qed.

(** ** Merge *)

Lemma zip_orb_comm (l1 l2 : list bool) :
  zip_with orb l1 l2 = zip_with orb l2 l1.
Proof.
  revert l2. induction l1 as [|x l1 IH]; intros [|y l2]; simpl; try reflexivity.
  now rewrite orb_comm, IH.
Qed.

Lemma zip_orb_assoc (l1 l2 l3 : list bool) :
  zip_with orb (zip_with orb l1 l2) l3 = zip_with orb l1 (zip_with orb l2 l3).
Proof.
  revert l2 l3.
  induction l1 as [|x l1 IH]; intros [|y l2] [|z l3]; simpl; try reflexivity.
  now rewrite orb_assoc, IH.
Qed.

Lemma zip_orb_diag (l : list bool) : zip_with orb l l = l.
Proof.
  induction l as [|x l IH]; simpl; [reflexivity|].
  now rewrite orb_diag, IH.
Qed.

Lemma zip_orb_clear_r (l o : list bool) :
  length l = length o -> bitarray_any o = false -> zip_with orb l o = l.
Proof.
  revert o. induction l as [|x l IH]; intros [|y o] Hlen Hany;
    simpl in *; try reflexivity; try discriminate.
  apply orb_false_iff in Hany as [-> Hany].
  rewrite orb_false_r, IH; [reflexivity | lia | exact Hany].
Qed.

Lemma merged_wf s o :
  wf s -> wf o -> attr_m o = attr_m s -> wf (merged s o).
Proof.
  intros [Hms Hls] [Hmo Hlo] Hm. split; simpl; [done|].
  rewrite length_zip_with. lia.
Qed.

(** X7.  Merge is commutative on what the filter answers from: [a + b]
    and [b + a] have the same bit array and the same length.  The
    attributes [n] and [b] of the result are those of the left operand. *)
Theorem merge_commutes (a b : loc) (fa fb : bloomfilter) (h : heap) :
  h !! a = Some fa -> h !! b = Some fb -> wf fa -> wf fb ->
  attr_k fb = attr_k fa -> attr_m fb = attr_m fa ->
  ∃ r d h1 r' d' h2,
    __add__ a (Filter b) h = (Ok r, h1) ∧ h1 !! r = Some d
    ∧ __add__ b (Filter a) h = (Ok r', h2) ∧ h2 !! r' = Some d'
    ∧ attr_bitarray d = attr_bitarray d'
    ∧ attr_size d = attr_size d'
    ∧ attr_n d = attr_n fa ∧ attr_b d = attr_b fa
    ∧ attr_n d' = attr_n fb ∧ attr_b d' = attr_b fb.
Proof.
  intros Ea Eb Ha Hb Hk Hm.
  exists (fresh (dom h)), (merged fa fb), (<[fresh (dom h) := merged fa fb]> h).
  exists (fresh (dom h)), (merged fb fa), (<[fresh (dom h) := merged fb fa]> h).
  split; [now apply merge_run|].
  split; [apply lookup_insert_eq|].
  split; [now apply merge_run|].
  split; [apply lookup_insert_eq|].
  cbn [merged attr_bitarray attr_size attr_n attr_b set_bitarray set_size].
  split; [apply zip_orb_comm|].
  split; [lia|]. repeat split.
Qed.

(** X8.  Merge is associative on the bit array and the length:
    [(a + b) + c] and [a + (b + c)] have the same bit array and the same
    length. *)
Theorem merge_associates (a b c : loc) (fa fb fc : bloomfilter) (h : heap) :
  h !! a = Some fa -> h !! b = Some fb -> h !! c = Some fc ->
  wf fa -> wf fb -> wf fc ->
  attr_k fb = attr_k fa -> attr_m fb = attr_m fa ->
  attr_k fc = attr_k fa -> attr_m fc = attr_m fa ->
  ∃ r1 h1 r2 h2 d r3 h3 r4 h4 d',
    __add__ a (Filter b) h = (Ok r1, h1)
    ∧ __add__ r1 (Filter c) h1 = (Ok r2, h2) ∧ h2 !! r2 = Some d
    ∧ __add__ b (Filter c) h = (Ok r3, h3)
    ∧ __add__ a (Filter r3) h3 = (Ok r4, h4) ∧ h4 !! r4 = Some d'
    ∧ attr_bitarray d = attr_bitarray d'
    ∧ attr_size d = attr_size d'.
Proof.
  intros Ea Eb Ec Ha Hb Hc Hkb Hmb Hkc Hmc.
  set (r1 := fresh (dom h)).
  set (h1 := <[r1 := merged fa fb]> h).
  set (h3 := <[r1 := merged fb fc]> h).
  assert (Hnc : r1 ≠ c) by (eapply fresh_ne; exact Ec).
  assert (Hna : r1 ≠ a) by (eapply fresh_ne; exact Ea).
  exists r1, h1, (fresh (dom h1)),
    (<[fresh (dom h1) := merged (merged fa fb) fc]> h1),
    (merged (merged fa fb) fc).
  exists r1, h3, (fresh (dom h3)),
    (<[fresh (dom h3) := merged fa (merged fb fc)]> h3),
    (merged fa (merged fb fc)).
  split; [now apply merge_run|].
  split.
  { apply merge_run; try assumption.
    - apply lookup_insert_eq.
    - unfold h1. now rewrite lookup_insert_ne.
    - now apply merged_wf. }
  split; [apply lookup_insert_eq|].
  split; [apply merge_run; try assumption; congruence|].
  split.
  { apply merge_run; try assumption.
    - unfold h3. now rewrite lookup_insert_ne.
    - apply lookup_insert_eq.
    - apply merged_wf; try assumption. congruence. }
  split; [apply lookup_insert_eq|].
  cbn [merged attr_bitarray attr_size set_bitarray set_size].
  split; [apply zip_orb_assoc | lia].
Qed.

(** X9.  Merging a filter with itself sets no new bit but counts every
    element twice: [self + self] has the bit array of [self] and twice
    its length. *)
Theorem merge_with_itself (self : loc) (f : bloomfilter) (h : heap) :
  h !! self = Some f -> wf f ->
  ∃ r d h',
    __add__ self (Filter self) h = (Ok r, h') ∧ h' !! r = Some d
    ∧ h !! r = None
    ∧ attr_bitarray d = attr_bitarray f
    ∧ attr_size d = 2 * attr_size f
    ∧ __len__ r h' = (Ok (2 * attr_size f), h').
Proof.
  intros E Hwf.
  assert (Er : <[fresh (dom h) := merged f f]> h !! fresh (dom h)
               = Some (merged f f)) by apply lookup_insert_eq.
  exists (fresh (dom h)), (merged f f), (<[fresh (dom h) := merged f f]> h).
  split; [now apply merge_run|].
  split; [exact Er|].
  split; [apply fresh_None|].
  split; [apply zip_orb_diag|].
  assert (Hsz : attr_size (merged f f) = 2 * attr_size f)
    by (cbn [merged attr_size set_bitarray set_size]; lia).
  split; [exact Hsz|].
  unfold __len__. rewrite (getattr_Some _ _ _ _ Er). now rewrite Hsz.
Qed.

(** X10.  A filter with no bit set is neutral for the merge: merging it
    into [self] gives the bit array of [self], and the lengths add. *)
Theorem merge_with_clear (self other : loc) (s o : bloomfilter) (h : heap) :
  h !! self = Some s -> h !! other = Some o -> wf s -> wf o ->
  attr_k o = attr_k s -> attr_m o = attr_m s ->
  bitarray_any (attr_bitarray o) = false ->
  ∃ r d h',
    __add__ self (Filter other) h = (Ok r, h') ∧ h' !! r = Some d
    ∧ attr_bitarray d = attr_bitarray s
    ∧ attr_size d = attr_size s + attr_size o
    ∧ ∀ x b, __contains__ self x h = (Ok b, h) ->
             __contains__ r x h' = (Ok b, h').
Proof.
  intros Es Eo Hs Ho Hk Hm Hclear.
  assert (Er : <[fresh (dom h) := merged s o]> h !! fresh (dom h)
               = Some (merged s o)) by apply lookup_insert_eq.
  assert (Hbits : attr_bitarray (merged s o) = attr_bitarray s).
  { cbn [merged attr_bitarray set_bitarray set_size].
    apply zip_orb_clear_r; [| exact Hclear].
    destruct Hs as [_ Hls], Ho as [_ Hlo]. congruence. }
  exists (fresh (dom h)), (merged s o), (<[fresh (dom h) := merged s o]> h).
  split; [now apply merge_run|].
  split; [exact Er|].
  split; [exact Hbits|].
  split; [reflexivity|].
  intros x b Hx. rewrite (contains_run self x s h Es Hs) in Hx.
  injection Hx as <-.
  rewrite (contains_run _ x _ _ Er (merged_wf s o Hs Ho Hm)).
  now rewrite Hbits.
Qed.

(** ** Construction, population and the attributes *)

(** X11.  Construction with samples is construction without samples
    followed by one call with the samples: both leave the same store. *)
Theorem construct_then_populate (n epsilon : R) (k : Z) (samples : list Item)
    (h : heap) :
  (0 < n)%R -> (0 < epsilon < 1)%R ->
  ∃ h1 h2,
    __init__ n (Some samples) epsilon k h = (Ok (fresh (dom h)), h1)
    ∧ __init__ n None epsilon k h = (Ok (fresh (dom h)), h2)
    ∧ __call__ (fresh (dom h)) (Some samples) h2 = (Ok tt, h1).
Proof.
  intros Hn He.
  set (r := fresh (dom h)).
  set (f0 := init_object n [] epsilon k).
  exists (<[r := init_object n samples epsilon k]> h), (<[r := f0]> h).
  split; [now apply init_run|].
  split; [now apply init_run|].
  rewrite (call_run r (Some samples) f0 _ (lookup_insert_eq _ _ _)).
  - rewrite insert_insert_eq. reflexivity.
  - now apply init_object_wf.
  - apply bitarray_any_replicate.
Qed.

Lemma set_positions_any k m x bits :
  0 < m -> length bits = Z.to_nat m -> 0 < k ->
  bitarray_any (set_positions m x (range k) bits) = true.
Proof.
  intros Hm Hl Hk. apply bitarray_any_true. exists (position m x 0).
  apply set_positions_lookup. right. split.
  - pose proof (position_lt m x 0 Hm). unfold position. lia.
  - exists 0. split; [apply elem_of_seqZ; lia | reflexivity].
Qed.

(** X12.  A filter that holds an element takes no bulk population: the
    call raises, and leaves the store as it was, on a filter constructed
    with a non-empty list of samples (and a [k] argument that is not
    negative) and on the result of inserting an item into a filter with a
    positive [k]. *)
Theorem populate_rejects_nonempty :
  (∀ (n epsilon : R) (k : Z) (samples : list Item)
     (again : option (list Item)) (h : heap),
     (0 < n)%R -> (0 < epsilon < 1)%R -> 0 <= k -> samples ≠ [] ->
     ∃ h1,
       __init__ n (Some samples) epsilon k h = (Ok (fresh (dom h)), h1)
       ∧ __call__ (fresh (dom h)) again h1
         = (Raise (InputException msg_call), h1))
  ∧
  (∀ (self : loc) (f : bloomfilter) (x : Item)
     (again : option (list Item)) (h : heap),
     h !! self = Some f -> wf f -> 0 < attr_k f ->
     ∃ r h1,
       __add__ self (Other x) h = (Ok r, h1)
       ∧ __call__ r again h1 = (Raise (InputException msg_call), h1)).
Proof.
  split.
  - intros n epsilon k samples again h Hn He Hk Hne.
    exists (<[fresh (dom h) := init_object n samples epsilon k]> h).
    split; [now apply init_run|].
    apply (call_raise _ again (init_object n samples epsilon k));
      [apply lookup_insert_eq|].
    cbn [init_object attr_bitarray].
    apply add_items_any;
      [now apply init_m_pos | apply length_replicate
      | now apply init_k_pos | exact Hne].
  - intros self f x again h E Hwf Hk. pose proof Hwf as [Hm Hl].
    exists (fresh (dom h)), (<[fresh (dom h) := inserted f x]> h).
    split; [now apply insert_run|].
    apply (call_raise _ again (inserted f x)); [apply lookup_insert_eq|].
    cbn [inserted attr_bitarray set_bitarray set_size].
    now apply set_positions_any.
Qed.

(** X13.  Which exception is raised.  Construction checks [n] first:
    for [n <= 0] the message is the one about [n], whatever [epsilon]
    is; for a positive [n] and an [epsilon] outside (0,1) it is the one
    about epsilon.  The merge checks [k] first: when [k] differs the
    message is the one about hash functions, whatever [m] is; when only
    [m] differs it is the one about size.  The store is as before. *)
Theorem error_messages :
  (∀ n (samples : option (list Item)) epsilon k (h : heap),
     ((n <= 0)%R ->
      __init__ n samples epsilon k h = (Raise (InputException msg_n), h))
     ∧ ((0 < n)%R -> (epsilon <= 0)%R ∨ (1 <= epsilon)%R ->
        __init__ n samples epsilon k h
        = (Raise (InputException msg_epsilon), h)))
  ∧
  (∀ (self other : loc) (s o : bloomfilter) (h : heap),
     h !! self = Some s -> h !! other = Some o ->
     (attr_k o ≠ attr_k s ->
      __add__ self (Filter other) h = (Raise (InputException msg_k), h))
     ∧ (attr_k o = attr_k s -> attr_m o ≠ attr_m s ->
        __add__ self (Filter other) h = (Raise (InputException msg_m), h))).
Proof.
  split.
  - intros n samples epsilon k h. split.
    + intros Hn. unfold __init__. destruct (Rle_dec n 0); [reflexivity | lra].
    + intros Hn He. unfold __init__.
      destruct (Rle_dec n 0); [lra|].
      destruct (Rle_dec epsilon 0); [reflexivity|].
      destruct (Rge_dec epsilon 1); [reflexivity | lra].
  - intros self other s o h Es Eo. split.
    + intros Hk. unfold __add__. read_attr Eo. read_attr Es.
      now rewrite decide_True.
    + intros Hk Hm. unfold __add__. read_attr Eo. read_attr Es.
      rewrite decide_False by (intros H; now apply H).
      read_attr Eo. read_attr Es. now rewrite decide_True.
Qed.

(** X14.  No call changes [k], [m], [n], [b] or the number of bits of an
    object, removes an object or lowers its length: whatever the call
    of a client and whether it returns or raises, each object of a store
    of well-formed objects is still there afterwards with these
    attributes as before. *)
Theorem attributes_fixed (h : heap) (g : gmap nat (list Item)) (c : command)
    (r : loc) (f : bloomfilter) :
  heap_wf h -> h !! r = Some f ->
  ∃ f', (step (h, g) c).1 !! r = Some f'
      ∧ attr_k f' = attr_k f ∧ attr_m f' = attr_m f
      ∧ attr_n f' = attr_n f ∧ attr_b f' = attr_b f
      ∧ length (attr_bitarray f') = length (attr_bitarray f)
      ∧ attr_size f <= attr_size f'.
Proof.
  intros Hwf E.
  assert (Hsame : ∃ f', h !! r = Some f'
            ∧ attr_k f' = attr_k f ∧ attr_m f' = attr_m f
            ∧ attr_n f' = attr_n f ∧ attr_b f' = attr_b f
            ∧ length (attr_bitarray f') = length (attr_bitarray f)
            ∧ attr_size f <= attr_size f').
  { exists f. repeat split; [exact E | lia]. }
  assert (Hnew : ∀ d, ∃ f', <[fresh (dom h) := d]> h !! r = Some f'
            ∧ attr_k f' = attr_k f ∧ attr_m f' = attr_m f
            ∧ attr_n f' = attr_n f ∧ attr_b f' = attr_b f
            ∧ length (attr_bitarray f') = length (attr_bitarray f)
            ∧ attr_size f <= attr_size f').
  { intros d. rewrite lookup_insert_ne by (eapply fresh_ne; exact E).
    exact Hsame. }
  destruct c as [n samples epsilon k | self item | self samples | self other];
    cbn [step].
  - case_parameters n epsilon.
    + rewrite init_run by (try split; assumption). apply Hnew.
    + destruct (init_raise n samples epsilon k h) as [msg ->]; [auto | exact Hsame].
    + destruct (init_raise n samples epsilon k h) as [msg ->]; [auto | exact Hsame].
    + destruct (init_raise n samples epsilon k h) as [msg ->]; [auto | exact Hsame].
  - destruct (h !! self) as [s|] eqn:Es.
    + rewrite (insert_run _ _ _ _ Es (Hwf _ _ Es)). apply Hnew.
    + rewrite add_dangling by done. exact Hsame.
  - destruct (h !! self) as [s|] eqn:Es.
    + destruct (bitarray_any (attr_bitarray s)) eqn:Hany.
      * rewrite (call_raise _ _ _ _ Es Hany). exact Hsame.
      * rewrite (call_run _ _ _ _ Es (Hwf _ _ Es) Hany). cbn [fst].
        destruct (decide (self = r)) as [-> | Hne].
        -- rewrite lookup_insert_eq. rewrite E in Es. injection Es as <-.
           eexists. split; [reflexivity|].
           cbn [populated attr_k attr_m attr_n attr_b attr_bitarray attr_size
                set_bitarray set_size].
           repeat split; [apply add_items_length | lia].
        -- rewrite lookup_insert_ne by done. exact Hsame.
    + rewrite call_dangling by done. exact Hsame.
  - destruct (h !! other) as [o|] eqn:Eo;
      [| rewrite merge_dangling by done; exact Hsame].
    destruct (h !! self) as [s|] eqn:Es;
      [| rewrite add_dangling by done; exact Hsame].
    destruct (decide (attr_k o = attr_k s)) as [Hk | Hk];
      [destruct (decide (attr_m o = attr_m s)) as [Hm | Hm] |].
    + rewrite (merge_run _ _ _ _ _ Es Eo (Hwf _ _ Es) (Hwf _ _ Eo) Hk Hm).
      apply Hnew.
    + destruct (merge_raise _ _ _ _ _ Es Eo (or_intror Hm)) as [msg [_ ->]].
      exact Hsame.
    + destruct (merge_raise _ _ _ _ _ Es Eo (or_introl Hk)) as [msg [_ ->]].
      exact Hsame.
Qed.

(** ** The length *)

(** The length of every object is the number of items recorded for it. *)
Definition size_inv (st : heap * gmap nat (list Item)) : Prop :=
  ∀ r f, st.1 !! r = Some f ->
         attr_size f = Z.of_nat (length (members st.2 r)).

Lemma size_inv_insert (h : heap) (g : gmap nat (list Item)) r f xs :
  size_inv (h, g) -> attr_size f = Z.of_nat (length xs) ->
  size_inv (<[r := f]> h, <[r := xs]> g).
Proof.
  intros Hinv Hf r' f' E. simpl in *.
  destruct (decide (r = r')) as [<- | Hne].
  - rewrite lookup_insert_eq in E. injection E as <-.
    now rewrite members_insert_eq.
  - rewrite lookup_insert_ne in E by done.
    rewrite members_insert_ne by done. now apply Hinv.
Qed.

Lemma size_inv_step h g c :
  heap_wf h -> size_inv (h, g) -> size_inv (step (h, g) c).
Proof.
  intros Hwf Hinv.
  destruct c as [n samples epsilon k | self item | self samples | self other];
    cbn [step].
  - case_parameters n epsilon.
    + rewrite init_run by (try split; assumption).
      now apply size_inv_insert.
    + destruct (init_raise n samples epsilon k h) as [msg ->]; [auto | done].
    + destruct (init_raise n samples epsilon k h) as [msg ->]; [auto | done].
    + destruct (init_raise n samples epsilon k h) as [msg ->]; [auto | done].
  - destruct (h !! self) as [f|] eqn:E; [| now rewrite add_dangling].
    rewrite (insert_run _ _ _ _ E (Hwf _ _ E)).
    apply size_inv_insert; [done|].
    cbn [inserted attr_size set_bitarray set_size length].
    rewrite (Hinv _ _ E). simpl. lia.
  - destruct (h !! self) as [f|] eqn:E; [| now rewrite call_dangling].
    destruct (bitarray_any (attr_bitarray f)) eqn:Hany.
    + now rewrite (call_raise _ _ _ _ E Hany).
    + rewrite (call_run _ _ _ _ E (Hwf _ _ E) Hany).
      apply size_inv_insert; [done|].
      cbn [populated attr_size set_bitarray set_size].
      rewrite (Hinv _ _ E), length_app. simpl. lia.
  - destruct (h !! other) as [o|] eqn:Eo; [| now rewrite merge_dangling].
    destruct (h !! self) as [s|] eqn:Es; [| now rewrite add_dangling].
    destruct (decide (attr_k o = attr_k s)) as [Hk | Hk];
      [destruct (decide (attr_m o = attr_m s)) as [Hm | Hm] |].
    + rewrite (merge_run _ _ _ _ _ Es Eo (Hwf _ _ Es) (Hwf _ _ Eo) Hk Hm).
      apply size_inv_insert; [done|].
      cbn [merged attr_size set_bitarray set_size].
      rewrite (Hinv _ _ Es), (Hinv _ _ Eo), length_app. simpl. lia.
    + destruct (merge_raise _ _ _ _ _ Es Eo (or_intror Hm)) as [msg [_ ->]]. done.
    + destruct (merge_raise _ _ _ _ _ Es Eo (or_introl Hk)) as [msg [_ ->]]. done.
Qed.

Lemma size_inv_run cs : size_inv (run cs).
Proof.
  unfold run. induction cs as [|c cs IH] using rev_ind.
  - intros r f E. simpl in E. now rewrite lookup_empty in E.
  - rewrite foldl_snoc.
    pose proof (inv_run cs) as [Hwf _]. unfold run in Hwf.
    destruct (foldl step (∅, ∅) cs) as [h g].
    now apply size_inv_step.
Qed.

(** X15.  In every state a client program reaches, [len] of an object is
    the number of items put into it, repetitions counted: one per sample
    at construction, one per insertion, one per element of a successful
    call, and for a merge the sum over both operands. *)
Theorem len_counts_insertions (cs : list command) (r : loc) (f : bloomfilter) :
  (run cs).1 !! r = Some f ->
  attr_size f = Z.of_nat (length (members (run cs).2 r))
  ∧ __len__ r (run cs).1
    = (Ok (Z.of_nat (length (members (run cs).2 r))), (run cs).1).
Proof.
  intros E. pose proof (size_inv_run cs r f E) as Hsz.
  split; [exact Hsz|].
  unfold __len__. rewrite (getattr_Some _ _ _ _ E). now rewrite Hsz.
Qed.

(** ** The estimated error rate and the derived [k] *)

Section Estimate.
Local Open Scope R_scope.






End Estimate.





(** ** The default filter *)

(** [bloomfilter()]: the default arguments of [__init__] (line 27),
    [n=1e5], [samples=None], [epsilon=1e-3], [k=0]. *)
Definition bloomfilter_default : M loc :=
  __init__ 100000 None (1 / 1000) 0.

Section DefaultFilter.
Local Open Scope R_scope.

Lemma ln2_upper' : ln 2 < 6931471900000000 / 10000000000000000.
Proof.
  apply (ln_upper 40 2 10000000000000000 6931471900000000);
    vm_compute; congruence.
Qed.

Lemma ln2_lower' : 6931471800000000 / 10000000000000000 < ln 2.
Proof.
  apply (ln_lower 40 2 10000000000000000 6931471800000000);
    vm_compute; congruence.
Qed.

Lemma ln1000_upper : ln 1000 < 69077553000000000 / 10000000000000000.
Proof.
  apply (ln_upper 40 1000 10000000000000000 69077553000000000);
    vm_compute; congruence.
Qed.

Lemma ln1000_lower : 69077552000000000 / 10000000000000000 < ln 1000.
Proof.
  apply (ln_lower 40 1000 10000000000000000 69077552000000000);
    vm_compute; congruence.
Qed.

Lemma init_b_default :
  1437758 / 100000 < init_b (1 / 1000) < 1437759 / 100000.
Proof.
  unfold init_b.
  replace (1 / 1000) with (/ 1000) by lra.
  rewrite ln_Rinv by lra. rewrite Ropp_involutive.
  pose proof ln2_upper' as U2. pose proof ln2_lower' as L2.
  pose proof ln1000_upper as U. pose proof ln1000_lower as L.
  assert (Hsq : 0 < ln 2 ^ 2) by (apply pow_lt; lra).
  assert (Hlo : (69314718 / 100000000) ^ 2 < ln 2 ^ 2).
  { simpl. rewrite !Rmult_1_r. apply Rmult_le_0_lt_compat; lra. }
  assert (Hhi : ln 2 ^ 2 < (69314719 / 100000000) ^ 2).
  { simpl. rewrite !Rmult_1_r. apply Rmult_le_0_lt_compat; lra. }
  split.
  - apply Rmult_lt_reg_r with (ln 2 ^ 2); [assumption|].
    unfold Rdiv at 2. rewrite Rmult_assoc, Rinv_l, Rmult_1_r by lra. lra.
  - apply Rmult_lt_reg_r with (ln 2 ^ 2); [assumption|].
    unfold Rdiv at 1. rewrite Rmult_assoc, Rinv_l, Rmult_1_r by lra. lra.
Qed.

Lemma init_m_default : init_m 100000 (1 / 1000) = 1437759%Z.
Proof.
  unfold init_m. apply Zceil_eq. pose proof init_b_default. lra.
Qed.

Lemma init_k_default : init_k (1 / 1000) 0 = 10%Z.
Proof.
  unfold init_k. rewrite decide_True by reflexivity.
  apply Zceil_eq. unfold init_b.
  replace (1 / 1000) with (/ 1000) by lra.
  rewrite ln_Rinv by lra. rewrite Ropp_involutive.
  pose proof ln2_upper' as U2. pose proof ln2_lower' as L2.
  pose proof ln1000_upper as U. pose proof ln1000_lower as L.
  replace (ln 1000 / ln 2 ^ 2 * ln 2) with (ln 1000 / ln 2) by (field; lra).
  split.
  - apply Rmult_lt_reg_r with (ln 2); [lra|].
    unfold Rdiv. rewrite Rmult_assoc, Rinv_l, Rmult_1_r by lra. lra.
  - apply Rmult_le_reg_r with (ln 2); [lra|].
    unfold Rdiv. rewrite Rmult_assoc, Rinv_l, Rmult_1_r by lra. lra.
Qed.

End DefaultFilter.

(** X19.  [bloomfilter()] with the default arguments returns an empty
    filter with [k = 10] hash functions and [m = 1437759] bits, all 0. *)
Theorem default_filter (h : heap) :
  ∃ f, bloomfilter_default h = (Ok (fresh (dom h)), <[fresh (dom h) := f]> h)
     ∧ attr_k f = 10 ∧ attr_m f = 1437759 ∧ attr_size f = 0
     ∧ Z.of_nat (length (attr_bitarray f)) = 1437759
     ∧ bitarray_any (attr_bitarray f) = false.
Proof.
  exists (init_object 100000 [] (1 / 1000) 0).
  split; [unfold bloomfilter_default; apply init_run; lra|].
  unfold init_object, add_items.
  cbn [attr_k attr_m attr_size attr_bitarray foldl].
  split; [apply init_k_default|].
  split; [apply init_m_default|].
  split; [reflexivity|].
  split; [| apply bitarray_any_replicate].
  rewrite length_replicate, init_m_default. apply Z2Nat.id. lia.
Qed.

(** ** Two more edge cases *)

(** X20.  A call without samples ([None] or the empty list) on a filter
    with no bit set does nothing at all: it returns and the store is
    exactly as before. *)
Theorem populate_nothing (self : loc) (f : bloomfilter)
    (samples : option (list Item)) (h : heap) :
  h !! self = Some f -> wf f ->
  bitarray_any (attr_bitarray f) = false -> samples_or_empty samples = [] ->
  __call__ self samples h = (Ok tt, h).
Proof.
  intros E Hwf Hany Hs.
  rewrite (call_run self samples f h E Hwf Hany), Hs.
  assert (Hpop : populated f [] = f).
  { unfold populated. cbn [add_items foldl length]. simpl Z.of_nat.
    rewrite Z.add_0_r. now destruct f. }
  rewrite Hpop. now rewrite insert_id.
Qed.

(** X21.  The result of a merge reports an item present exactly when
    each position of the item is set in one operand or the other; the
    operands need not agree on which. *)
Theorem merge_contains (self other : loc) (s o : bloomfilter) (x : Item)
    (h : heap) :
  h !! self = Some s -> h !! other = Some o -> wf s -> wf o ->
  attr_k o = attr_k s -> attr_m o = attr_m s ->
  ∃ r h' b,
    __add__ self (Filter other) h = (Ok r, h')
    ∧ __contains__ r x h' = (Ok b, h')
    ∧ (b = true ↔
       ∀ seed, 0 <= seed < attr_k s ->
         attr_bitarray s !! position (attr_m s) x seed = Some true
         ∨ attr_bitarray o !! position (attr_m s) x seed = Some true).
Proof.
  intros Es Eo Hs Ho Hk Hm.
  assert (Er : <[fresh (dom h) := merged s o]> h !! fresh (dom h)
               = Some (merged s o)) by apply lookup_insert_eq.
  exists (fresh (dom h)), (<[fresh (dom h) := merged s o]> h),
    (all_set (attr_m s) x (range (attr_k s))
       (zip_with orb (attr_bitarray s) (attr_bitarray o))).
  split; [now apply merge_run|].
  split; [apply (contains_run _ x _ _ Er (merged_wf s o Hs Ho Hm))|].
  assert (Hlen : length (attr_bitarray s) = length (attr_bitarray o)).
  { destruct Hs as [_ Hls], Ho as [_ Hlo]. congruence. }
  rewrite all_set_true. split.
  - intros H seed Hseed.
    assert (Hin : seed ∈ range (attr_k s)) by (apply elem_of_seqZ; lia).
    apply H, lookup_zip_with_Some in Hin as [a [b [Hab [Ha Hb]]]].
    symmetry in Hab. apply orb_true_iff in Hab as [-> | ->]; auto.
  - intros H seed Hin. apply elem_of_seqZ in Hin.
    destruct (H seed) as [Hset | Hset]; [lia | |].
    + now apply zip_orb_le_l.
    + now apply zip_orb_le_r.
Qed.

End BloomFilter.

(** * Concrete instances *)

(** A hash on numbers that takes negative values, and a store of three
    well-formed objects: two that agree on [k] and [m] and one with
    another [k]. *)
Definition toy_hash (item : nat) (seed : Z) : Z :=
  5 - 3 * Z.of_nat item - seed.

Definition demo_a : bloomfilter :=
  Bloomfilter 1 2 1 4 [false; true; false; false] 1.
Definition demo_b : bloomfilter :=
  Bloomfilter 1 2 1 4 [false; false; false; true] 1.
Definition demo_c : bloomfilter :=
  Bloomfilter 1 3 1 4 [false; false; false; false] 0.

Definition demo_heap : gmap nat bloomfilter :=
  <[0%nat := demo_a]> (<[1%nat := demo_b]> (<[2%nat := demo_c]> ∅)).

(** The reference of the first object built in the empty store. *)
Definition first_ref : nat := fresh (dom (∅ : gmap nat bloomfilter)).

Definition demo_program : list (command nat) :=
  [Construct nat 1 (Some [7; 8]%nat) (1 / 2) 0; Insert nat first_ref 9%nat].

Lemma demo_heap_wf : heap_wf demo_heap.
Proof.
  unfold demo_heap.
  repeat (apply heap_wf_insert; [| split; [reflexivity | reflexivity]]).
  intros r f E. now rewrite lookup_empty in E.
Qed.

Lemma no_false_negatives_witness :
  ∃ r, __contains__ nat toy_hash r 7%nat (run nat toy_hash demo_program).1
       = (Ok true, (run nat toy_hash demo_program).1).
Proof.
  eexists. apply (no_false_negatives nat toy_hash demo_program).
  unfold run, demo_program. cbn [foldl step].
  rewrite init_run by lra. cbn [samples_or_empty].
  fold first_ref. cbn [step].
  rewrite (insert_run nat toy_hash first_ref 9%nat _ _ (lookup_insert_eq _ _ _))
    by (apply init_object_wf; lra).
  cbn [snd]. rewrite members_insert_eq, members_insert_eq.
  apply list_elem_of_further, list_elem_of_here.
Defined.

Lemma parameter_derivation_witness :
  ∃ f, __init__ nat toy_hash 1000 None (1 / 100) 0 ∅
       = (Ok first_ref, <[first_ref := f]> ∅)
     ∧ attr_k f = 7 ∧ attr_m f = 9586.
Proof.
  destruct (parameter_derivation nat toy_hash 1000 (1 / 100) 0 None ∅)
    as [f [Hrun [_ [_ [_ [_ Hex]]]]]]; [lra | lra |].
  destruct (Hex eq_refl eq_refl eq_refl) as [_ [Hk Hm]].
  exists f. auto.
Defined.

(** The example of the specification with [m = 9585] does not hold:
    construction with [n = 1000] and [epsilon = 0.01] gives no object
    with [m = 9585]. *)
Lemma derivation_example_m_not_9585 :
  ¬ ∃ r f h', __init__ nat toy_hash 1000 None (1 / 100) 0 ∅ = (Ok r, h')
              ∧ h' !! r = Some f ∧ attr_m f = 9585.
Proof.
  intros [r [f [h' [Hrun [E Hm]]]]].
  rewrite init_run in Hrun by lra. injection Hrun as <- <-.
  rewrite lookup_insert_eq in E. injection E as <-.
  cbn [init_object attr_m] in Hm. rewrite init_m_example in Hm. discriminate.
Qed.

Lemma population_guard_witness :
  (∃ h', __call__ nat toy_hash 0%nat (Some [7%nat]) demo_heap
         = (Raise (InputException msg_call), h'))
  ∧ ∃ h1 h2,
      __init__ nat toy_hash 1 None (1 / 2) 0 ∅ = (Ok first_ref, h1)
      ∧ __call__ nat toy_hash first_ref (Some [7%nat]) h1 = (Ok tt, h2)
      ∧ __len__ first_ref h2 = (Ok 1, h2)
      ∧ __call__ nat toy_hash first_ref (Some []) h2
        = (Raise (InputException msg_call), h2).
Proof.
  destruct (population_guard nat toy_hash) as [Hguard Hscenario]. split.
  - destruct (Hguard 0%nat demo_a demo_heap (Some [7%nat])) as [Hiff _].
    + reflexivity.
    + split; reflexivity.
    + apply Hiff. exists 1%nat. reflexivity.
  - apply (Hscenario 1%R (1 / 2)%R 0 [7%nat] (Some []) ∅); [lra | lra | lia | done].
Defined.

(** A second population is accepted after a first one with an empty
    list: both calls return. *)
Lemma second_population_accepted :
  ∃ h1 h2 h3,
    __init__ nat toy_hash 1 None (1 / 2) 0 ∅ = (Ok first_ref, h1)
    ∧ __call__ nat toy_hash first_ref (Some []) h1 = (Ok tt, h2)
    ∧ __len__ first_ref h2 = (Ok 0, h2)
    ∧ __call__ nat toy_hash first_ref (Some []) h2 = (Ok tt, h3).
Proof.
  set (f0 := init_object nat toy_hash 1 [] (1 / 2) 0).
  assert (Hwf : wf f0) by (apply init_object_wf; lra).
  assert (Hany : bitarray_any (attr_bitarray f0) = false)
    by apply bitarray_any_replicate.
  assert (Hpop : populated nat toy_hash f0 [] = f0).
  { unfold populated. cbn [add_items foldl length]. simpl Z.of_nat.
    rewrite Z.add_0_r. now destruct f0. }
  assert (Hcall : ∀ h : gmap nat bloomfilter, h !! first_ref = Some f0 ->
            __call__ nat toy_hash first_ref (Some []) h = (Ok tt, h)).
  { intros h E. rewrite (call_run nat toy_hash _ _ _ _ E Hwf Hany).
    cbn [samples_or_empty]. rewrite Hpop. now rewrite insert_id. }
  exists (<[first_ref := f0]> ∅), (<[first_ref := f0]> ∅), (<[first_ref := f0]> ∅).
  split; [apply init_run; lra|].
  split; [apply Hcall, lookup_insert_eq|].
  split; [| apply Hcall, lookup_insert_eq].
  unfold __len__. now rewrite (getattr_Some _ _ _ _ (lookup_insert_eq _ _ _)).
Qed.

Lemma merge_correct_witness :
  ∃ r f h',
    __add__ nat toy_hash 0%nat (Filter nat 1%nat) demo_heap = (Ok r, h')
    ∧ h' !! r = Some f
    ∧ attr_bitarray f = [false; true; false; true]
    ∧ attr_size f = 2.
Proof.
  destruct (merge_correct nat toy_hash 0%nat 1%nat demo_a demo_b demo_heap)
    as [r [f [h' [Hrun [_ [Hh' [Hbits [_ [_ [Hsize _]]]]]]]]]];
    [reflexivity | reflexivity | split; reflexivity | split; reflexivity
    | reflexivity | reflexivity |].
  exists r, f, h'. subst h'. rewrite lookup_insert_eq. auto.
Defined.

Lemma merge_compatibility_witness :
  (∃ e h', __add__ nat toy_hash 0%nat (Filter nat 2%nat) demo_heap = (Raise e, h'))
  ∧ ∃ r1 h1 r2 h2 r h3,
      __init__ nat toy_hash 1 (Some [7%nat]) (1 / 2) 0 ∅ = (Ok r1, h1)
      ∧ __init__ nat toy_hash 1 (Some [8%nat]) (1 / 2) 0 h1 = (Ok r2, h2)
      ∧ __add__ nat toy_hash r1 (Filter nat r2) h2 = (Ok r, h3).
Proof.
  destruct (merge_compatibility nat toy_hash) as [Hcheck Hsame]. split.
  - destruct (Hcheck 0%nat 2%nat demo_a demo_c demo_heap) as [Hiff _];
      [reflexivity | reflexivity | split; reflexivity | split; reflexivity |].
    apply Hiff. left. discriminate.
  - apply Hsame; lra.
Defined.

Lemma insert_non_mutating_witness :
  ∃ r d h',
    __add__ nat toy_hash 0%nat (Other nat 7%nat) demo_heap = (Ok r, h')
    ∧ h' !! 0%nat = Some demo_a
    ∧ h' !! r = Some d
    ∧ attr_size d = 2.
Proof.
  destruct (insert_non_mutating nat toy_hash 0%nat demo_a 7%nat demo_heap)
    as [r [d [h' [Hrun [_ [_ [Hself [_ [_ [Hr [Hsize _]]]]]]]]]]];
    [reflexivity | split; reflexivity |].
  exists r, d, h'. auto.
Defined.

Lemma bits_never_cleared_witness :
  ∃ r d h',
    __add__ nat toy_hash 0%nat (Other nat 7%nat) demo_heap = (Ok r, h')
    ∧ h' !! r = Some d
    ∧ bits_le (attr_bitarray demo_a) (attr_bitarray d).
Proof.
  destruct (bits_never_cleared nat toy_hash demo_heap demo_heap_wf)
    as [_ [Hins _]].
  destruct (Hins 0%nat demo_a 7%nat eq_refl) as [r [d [h' [Hrun [Hr [Hle _]]]]]].
  exists r, d, h'. auto.
Defined.

Lemma actual_error_rate_witness :
  actual_epsilon 0%nat demo_heap
  = (Ok (Rpower (1 / 2) (4 / 1 * ln 2)), demo_heap)
  ∧ actual_epsilon 2%nat demo_heap = (Ok 0%R, demo_heap).
Proof.
  split.
  - destruct (actual_error_rate 0%nat demo_a demo_heap eq_refl) as [_ [_ H]].
    apply H. discriminate.
  - destruct (actual_error_rate 2%nat demo_c demo_heap eq_refl) as [_ [H _]].
    apply H. reflexivity.
Defined.

Lemma construction_validation_witness :
  (∃ e h', __init__ nat toy_hash 0 None (1 / 2) 0 ∅ = (Raise e, h'))
  ∧ (∃ f, __init__ nat toy_hash 1 (Some [7%nat]) (1 / 2) (-3) ∅
          = (Ok first_ref, <[first_ref := f]> ∅)
        ∧ attr_k f = -3)
  ∧ __contains__ nat toy_hash first_ref 8%nat
      (run nat toy_hash [Construct nat 1 (Some [7%nat]) (1 / 2) (-3)]).1
    = (Ok true, (run nat toy_hash [Construct nat 1 (Some [7%nat]) (1 / 2) (-3)]).1).
Proof.
  destruct (construction_validation nat toy_hash) as [Hraise [Hk Hneg]].
  split; [| split].
  - apply Hraise. left. lra.
  - apply Hk; [lra | lra | discriminate].
  - eapply (Hneg _ first_ref (init_object nat toy_hash 1 [7%nat] (1 / 2) (-3))).
    + unfold run. cbn [foldl step]. rewrite init_run by lra.
      cbn [fst]. apply lookup_insert_eq.
    + reflexivity.
Defined.

Lemma index_in_bounds_witness :
  0 <= toy_hash 7%nat 1 mod attr_m demo_a < attr_m demo_a
  ∧ ∀ h', __contains__ nat toy_hash 0%nat 7%nat demo_heap ≠ (Raise IndexError, h').
Proof.
  destruct (index_in_bounds nat toy_hash) as [Hidx [_ Hraise]]. split.
  - apply (Hidx demo_a 7%nat 1). split; reflexivity.
  - destruct (Hraise demo_heap IndexError demo_heap_wf (or_introl eq_refl))
      as [_ [_ [_ H]]].
    apply H.
Defined.

(** ** Instances of the further properties *)

Lemma demo_a_wf : wf demo_a.
Proof. split; reflexivity. Qed.

Lemma demo_b_wf : wf demo_b.
Proof. split; reflexivity. Qed.

Lemma demo_c_wf : wf demo_c.
Proof. split; reflexivity. Qed.

Lemma contains_exact_witness :
  ∃ b, __contains__ nat toy_hash 0%nat 7%nat demo_heap = (Ok b, demo_heap).
Proof.
  destruct (contains_exact nat toy_hash 0%nat demo_a 7%nat demo_heap eq_refl
              demo_a_wf) as [b [Hrun _]].
  exists b. exact Hrun.
Defined.

Lemma empty_filter_witness :
  ∃ h1, __init__ nat toy_hash 1 (Some []) (1 / 2) 0 ∅ = (Ok first_ref, h1)
        ∧ __contains__ nat toy_hash first_ref 7%nat h1 = (Ok false, h1).
Proof.
  destruct (empty_filter nat toy_hash 1 (1 / 2) 0 (Some []) ∅)
    as [h1 [Hrun [_ [_ [_ Hno]]]]]; [lra | lra | lia | reflexivity |].
  exists h1. split; [exact Hrun | apply Hno].
Defined.

Lemma constructed_contains_witness :
  ∃ b h1,
    __init__ nat toy_hash 1 (Some [7%nat]) (1 / 2) 0 ∅ = (Ok first_ref, h1)
    ∧ __contains__ nat toy_hash first_ref 8%nat h1 = (Ok b, h1).
Proof.
  destruct (constructed_contains nat toy_hash 1 (1 / 2) 0 (Some [7%nat]) ∅ 8%nat)
    as [b [h1 [Hrun [Hc _]]]]; [lra | lra |].
  exists b, h1. split; assumption.
Defined.

Lemma radd_inserts_witness :
  ∃ r h', __radd__ nat toy_hash 0%nat (Other nat 7%nat) demo_heap = (Ok r, h')
          ∧ __contains__ nat toy_hash r 7%nat h' = (Ok true, h').
Proof.
  destruct (radd_inserts nat toy_hash 0%nat demo_a 7%nat demo_heap eq_refl
              demo_a_wf) as [r [h' [Hrun [_ [_ [Hc _]]]]]].
  exists r, h'. split; assumption.
Defined.

Lemma insert_twice_witness :
  ∃ r1 h1 r2 d2 h2,
    __add__ nat toy_hash 0%nat (Other nat 7%nat) demo_heap = (Ok r1, h1)
    ∧ __add__ nat toy_hash r1 (Other nat 7%nat) h1 = (Ok r2, h2)
    ∧ h2 !! r2 = Some d2 ∧ attr_size d2 = 3.
Proof.
  destruct (insert_twice nat toy_hash 0%nat demo_a 7%nat demo_heap eq_refl
              demo_a_wf)
    as [r1 [d1 [h1 [r2 [d2 [h2 [H1 [_ [H2 [E2 [_ [_ Hs]]]]]]]]]]]].
  exists r1, h1, r2, d2, h2. auto.
Defined.

Lemma insert_order_witness :
  ∃ d d', attr_bitarray d = attr_bitarray d' ∧ attr_size d = attr_size d'
          ∧ attr_size d = 3.
Proof.
  destruct (insert_order nat toy_hash 0%nat demo_a 7%nat 8%nat demo_heap eq_refl
              demo_a_wf)
    as [r1 [h1 [r2 [h2 [d [r1' [h1' [r2' [h2' [d'
          [H1 [H2 [E2 [_ [_ [_ [Hb Hs]]]]]]]]]]]]]]]]].
  exists d, d'. split; [exact Hb|]. split; [exact Hs|].
  rewrite (insert_run nat toy_hash 0%nat 7%nat demo_a demo_heap eq_refl demo_a_wf)
    in H1.
  injection H1 as <- <-.
  rewrite (insert_run nat toy_hash _ 8%nat _ _ (lookup_insert_eq _ _ _)
             (inserted_wf nat toy_hash demo_a 7%nat demo_a_wf)) in H2.
  injection H2 as <- <-.
  rewrite lookup_insert_eq in E2. injection E2 as <-. reflexivity.
Defined.

Lemma merge_commutes_witness :
  ∃ r d h1 r' d' h2,
    __add__ nat toy_hash 0%nat (Filter nat 1%nat) demo_heap = (Ok r, h1)
    ∧ h1 !! r = Some d
    ∧ __add__ nat toy_hash 1%nat (Filter nat 0%nat) demo_heap = (Ok r', h2)
    ∧ h2 !! r' = Some d'
    ∧ attr_bitarray d = attr_bitarray d'.
Proof.
  destruct (merge_commutes nat toy_hash 0%nat 1%nat demo_a demo_b demo_heap
              eq_refl eq_refl demo_a_wf demo_b_wf eq_refl eq_refl)
    as [r [d [h1 [r' [d' [h2 [H1 [E1 [H2 [E2 [Hb _]]]]]]]]]]].
  exists r, d, h1, r', d', h2. auto.
Defined.

Lemma merge_associates_witness :
  ∃ d d', attr_bitarray d = attr_bitarray d' ∧ attr_size d = attr_size d'.
Proof.
  destruct (merge_associates nat toy_hash 0%nat 1%nat 0%nat
              demo_a demo_b demo_a demo_heap
              eq_refl eq_refl eq_refl demo_a_wf demo_b_wf demo_a_wf
              eq_refl eq_refl eq_refl eq_refl)
    as [r1 [h1 [r2 [h2 [d [r3 [h3 [r4 [h4 [d' [_ [_ [_ [_ [_ [_ H]]]]]]]]]]]]]]]].
  exists d, d'. exact H.
Defined.

Lemma merge_with_itself_witness :
  ∃ r d h',
    __add__ nat toy_hash 0%nat (Filter nat 0%nat) demo_heap = (Ok r, h')
    ∧ h' !! r = Some d
    ∧ attr_bitarray d = [false; true; false; false] ∧ attr_size d = 2.
Proof.
  destruct (merge_with_itself nat toy_hash 0%nat demo_a demo_heap eq_refl
              demo_a_wf) as [r [d [h' [Hrun [E [_ [Hb [Hs _]]]]]]]].
  exists r, d, h'. auto.
Defined.

Lemma merge_with_clear_witness :
  ∃ r d h',
    __add__ nat toy_hash 2%nat (Filter nat 2%nat) demo_heap = (Ok r, h')
    ∧ h' !! r = Some d
    ∧ attr_bitarray d = attr_bitarray demo_c.
Proof.
  destruct (merge_with_clear nat toy_hash 2%nat 2%nat demo_c demo_c demo_heap
              eq_refl eq_refl demo_c_wf demo_c_wf eq_refl eq_refl eq_refl)
    as [r [d [h' [Hrun [E [Hb _]]]]]].
  exists r, d, h'. auto.
Defined.

Lemma construct_then_populate_witness :
  ∃ h1 h2,
    __init__ nat toy_hash 1 (Some [7; 8]%nat) (1 / 2) 0 ∅ = (Ok first_ref, h1)
    ∧ __init__ nat toy_hash 1 None (1 / 2) 0 ∅ = (Ok first_ref, h2)
    ∧ __call__ nat toy_hash first_ref (Some [7; 8]%nat) h2 = (Ok tt, h1).
Proof.
  apply (construct_then_populate nat toy_hash 1 (1 / 2) 0 [7; 8]%nat ∅); lra.
Defined.

Lemma populate_rejects_nonempty_witness :
  (∃ h1,
     __init__ nat toy_hash 1 (Some [7%nat]) (1 / 2) 0 ∅ = (Ok first_ref, h1)
     ∧ __call__ nat toy_hash first_ref None h1
       = (Raise (InputException msg_call), h1))
  ∧ ∃ r h1,
      __add__ nat toy_hash 2%nat (Other nat 7%nat) demo_heap = (Ok r, h1)
      ∧ __call__ nat toy_hash r None h1 = (Raise (InputException msg_call), h1).
Proof.
  destruct (populate_rejects_nonempty nat toy_hash) as [Hinit Hins]. split.
  - apply (Hinit 1%R (1 / 2)%R 0 [7%nat] None ∅); [lra | lra | lia | done].
  - apply (Hins 2%nat demo_c 7%nat None demo_heap eq_refl demo_c_wf).
    reflexivity.
Defined.

Lemma error_messages_witness :
  __init__ nat toy_hash 0 None 2 0 ∅ = (Raise (InputException msg_n), ∅)
  ∧ __init__ nat toy_hash 1 None 2 0 ∅ = (Raise (InputException msg_epsilon), ∅)
  ∧ __add__ nat toy_hash 0%nat (Filter nat 2%nat) demo_heap
    = (Raise (InputException msg_k), demo_heap).
Proof.
  destruct (error_messages nat toy_hash) as [Hinit Hmerge].
  split; [| split].
  - apply (Hinit 0%R None 2%R 0 ∅). lra.
  - apply (Hinit 1%R None 2%R 0 ∅); [lra | right; lra].
  - apply (Hmerge 0%nat 2%nat demo_a demo_c demo_heap eq_refl eq_refl).
    discriminate.
Defined.

Lemma attributes_fixed_witness :
  ∃ f', (step nat toy_hash (demo_heap, ∅) (Insert nat 0%nat 7%nat)).1 !! 1%nat
        = Some f'
      ∧ attr_m f' = 4 ∧ attr_k f' = 2.
Proof.
  destruct (attributes_fixed nat toy_hash demo_heap ∅ (Insert nat 0%nat 7%nat)
              1%nat demo_b demo_heap_wf eq_refl)
    as [f' [E [Hk [Hm _]]]].
  exists f'. auto.
Defined.

Lemma len_counts_insertions_witness :
  __len__ first_ref (run nat toy_hash demo_program).1
  = (Ok (Z.of_nat (length (members nat (run nat toy_hash demo_program).2 first_ref))),
     (run nat toy_hash demo_program).1).
Proof.
  eapply (len_counts_insertions nat toy_hash demo_program first_ref).
  unfold run, demo_program. cbn [foldl step].
  rewrite init_run by lra. cbn [samples_or_empty]. fold first_ref. cbn [step].
  rewrite (insert_run nat toy_hash first_ref 9%nat _ _ (lookup_insert_eq _ _ _))
    by (apply init_object_wf; lra).
  cbn [fst]. rewrite lookup_insert_ne.
  - apply lookup_insert_eq.
  - eapply fresh_ne. apply lookup_insert_eq.
Defined.




Lemma populate_nothing_witness :
  __call__ nat toy_hash 2%nat None demo_heap = (Ok tt, demo_heap).
Proof.
  apply (populate_nothing nat toy_hash 2%nat demo_c None demo_heap eq_refl
           demo_c_wf eq_refl eq_refl).
Defined.

Lemma merge_contains_witness :
  ∃ r h' b,
    __add__ nat toy_hash 0%nat (Filter nat 1%nat) demo_heap = (Ok r, h')
    ∧ __contains__ nat toy_hash r 7%nat h' = (Ok b, h').
Proof.
  destruct (merge_contains nat toy_hash 0%nat 1%nat demo_a demo_b 7%nat demo_heap
              eq_refl eq_refl demo_a_wf demo_b_wf eq_refl eq_refl)
    as [r [h' [b [Hrun [Hc _]]]]].
  exists r, h', b. split; assumption.
Defined.
